(** * SectionManager of the scroll-follow extension

    A shallow embedding of [src/js/extensions/scrollFollow.sectionManager.js]
    and the properties of its section list, line lookup and preview grouping.

    JavaScript strings are sequences of UTF-16 code units, objects live in a
    store and are handled through references, and a call either returns or
    throws, keeping in both cases the mutations it has made so far. *)

From Stdlib Require Import NArith ZArith String Ascii DecimalString Lia.
From stdpp Require Import base list option.

Set Default Proof Using "Type".
Set Warnings "-register-all".

(** ** JavaScript strings *)

(** A string is the list of its UTF-16 code units. *)
Abbreviation jsstring := (list N).

(** An ASCII literal as a JavaScript string. *)
Definition js (s : string) : jsstring :=
  map N_of_ascii (list_ascii_of_string s).

(** ToBoolean on a string: only the empty string is falsy. *)
Definition truthy (s : jsstring) : bool :=
  match s with
  | [] => false
  | _ :: _ => true
  end.

(** ToBoolean on the result of a call that may give [undefined]. *)
Definition truthy_opt (s : option jsstring) : bool :=
  match s with
  | None => false
  | Some s => truthy s
  end.

(** The code units matched by [\s] and stripped by [String.prototype.trim]:
    ECMAScript WhiteSpace and LineTerminator. *)
Definition isWhiteSpace (c : N) : bool :=
  ((c =? 9) || (c =? 10) || (c =? 11) || (c =? 12) || (c =? 13) || (c =? 32)
   || (c =? 160) || (c =? 5760) || ((8192 <=? c) && (c <=? 8202))
   || (c =? 8232) || (c =? 8233) || (c =? 8239) || (c =? 8287)
   || (c =? 12288) || (c =? 65279))%N.

Fixpoint trimStart (s : jsstring) : jsstring :=
  match s with
  | [] => []
  | c :: s' => if isWhiteSpace c then trimStart s' else s
  end.

Definition trimEnd (s : jsstring) : jsstring := rev (trimStart (rev s)).

(** [s.trim()] *)
Definition trim (s : jsstring) : jsstring := trimEnd (trimStart s).

(** ** The two regular expressions of the module *)

Definition SPACE : N := 32.
Definition EQUALS : N := 61.
Definition HYPHEN : N := 45.

(** [/^ */]: the longest run of U+0020 at the front is consumed. *)
Fixpoint skipSpaces (s : jsstring) : jsstring :=
  match s with
  | [] => []
  | c :: s' => if (c =? SPACE)%N then skipSpaces s' else s
  end.

(** [c{1,}] once its first occurrence has been read: the rest of the run. *)
Fixpoint skipRun (c : N) (s : jsstring) : jsstring :=
  match s with
  | [] => []
  | x :: s' => if (x =? c)%N then skipRun c s' else s
  end.

(** [setextHeaderRx = /^ *(?:\={1,}|-{1,})\s*$/], as [str.match(rx)] being
    non-null. The three parts read disjoint classes where they meet, so the
    greedy reading below is the only way the expression can match. *)
Definition setextHeaderRx (s : jsstring) : bool :=
  match skipSpaces s with
  | [] => false
  | c :: rest =>
      if ((c =? EQUALS) || (c =? HYPHEN))%N
      then forallb isWhiteSpace (skipRun c rest)
      else false
  end.

(** The language of [setextHeaderRx], written out. *)
Definition setextHeaderLang (s : jsstring) : Prop :=
  ∃ (n k : nat) (c : N) (t : jsstring),
    s = replicate n SPACE ++ replicate (S k) c ++ t
    ∧ (c = EQUALS ∨ c = HYPHEN)
    ∧ Forall (λ x, isWhiteSpace x = true) t.

Fixpoint startsWith (prefix s : jsstring) : bool :=
  match prefix, s with
  | [], _ => true
  | _ :: _, [] => false
  | p :: prefix', c :: s' => (p =? c)%N && startsWith prefix' s'
  end.

(** An unanchored alternation of literals: some alternative occurs at some
    position of the subject. *)
Fixpoint searchAlternatives (alts : list jsstring) (s : jsstring) : bool :=
  existsb (λ a, startsWith a s) alts
  || match s with
     | [] => false
     | _ :: s' => searchAlternatives alts s'
     end.

Definition headingTags : list jsstring :=
  [js "H1"; js "H2"; js "H3"; js "H4"; js "H5"; js "H6"].

(** [/H1|H2|H3|H4|H5|H6/], as [tagName.match(rx)] being non-null. *)
Definition headingTagRx (tagName : jsstring) : bool :=
  searchAlternatives headingTags tagName.

(** ** The editor: CodeMirror as seen by the module *)

(** [state.base] of the mode state after a line, each field read for its
    truth value only. *)
Module base.
Record state : Type := mk {
  header : bool;
  quote : bool;
  list : bool;
  taskList : bool
}.
End base.

Record CodeMirror : Type := mkCodeMirror {
  docLines : list jsstring;
  getStateAfter : nat → base.state
}.

(** [cm.getDoc().lineCount()] *)
Definition lineCount (c : CodeMirror) : nat := length (docLines c).

(** [cm.getLine(i)]: [undefined] outside the document. *)
Definition getLine (c : CodeMirror) (i : nat) : option jsstring :=
  docLines c !! i.

(** ** Calls that return or throw *)

Inductive Error : Type := TypeError.

Inductive outcome (S A : Type) : Type :=
| Returns (a : A) (s : S)
| Throws (e : Error) (s : S).
Arguments Returns {S A} a s.
Arguments Throws {S A} e s.

Definition M (S A : Type) : Type := S → outcome S A.

Definition ret {S A} (a : A) : M S A := λ s, Returns a s.

Definition bind {S A B} (c : M S A) (k : A → M S B) : M S B :=
  λ s, match c s with
       | Returns a s' => k a s'
       | Throws e s' => Throws e s'
       end.

Definition throw {S A} (e : Error) : M S A := λ s, Throws e s.
Definition gets {S A} (f : S → A) : M S A := λ s, Returns (f s) s.
Definition modify {S} (f : S → S) : M S unit := λ s, Returns tt (f s).

Notation "'let*' x ':=' c 'in' k" := (bind c (λ x, k))
  (at level 10, x name, c at level 100, k at level 200, only parsing).
Notation "c ';;;' k" := (bind c (λ _, k))
  (at level 100, k at level 200, only parsing).

(** The final state of a call, however it ended. *)
Definition finalState {S A} (o : outcome S A) : S :=
  match o with
  | Returns _ s => s
  | Throws _ s => s
  end.

(** Calling the iteratee on a list of arguments, in order. *)
Fixpoint forEach {S A} (f : A → M S unit) (l : list A) : M S unit :=
  match l with
  | [] => ret tt
  | a :: l' => f a ;;; forEach f l'
  end.

(** ** The preview: top-level nodes of [.previewContent] *)

(** A DOM node with its identity; text and comment nodes have another
    [nodeType] than elements and an empty tag name. *)
Inductive Node : Type := mkNode {
  nodeId : nat;
  nodeType : nat;
  tagName : jsstring;
  className : jsstring;
  childNodes : list Node
}.

(** [Node.ELEMENT_NODE] *)
Definition ELEMENT_NODE : nat := 1.

(** A jQuery object: the nodes it holds, by identity. [None] in a field is
    JavaScript's [null]. *)
Abbreviation jQuery := (list nat).

(** ** Section objects and the manager *)

(** A reference to a section object of the store. *)
Abbreviation ref := nat.

(** The object made by [_makeSectionData]; [end_] is its [end] field and
    [previewSectionEl] its [$previewSectionEl] field. *)
Record SectionData : Type := mkSectionData {
  start : nat;
  end_ : nat;
  previewSectionEl : option jQuery
}.

(** The manager together with the objects it reaches: [cm] is [this.cm],
    the document as it is now; [previewContent] the child nodes of
    [this.$previewContent] and [nextNodeId] the identity of the next node
    to be created; [store] the section objects allocated so far, a
    reference being an index into it. The references a manager holds always
    point into the store. *)
Record SectionManager : Type := mkSectionManager {
  cm : CodeMirror;
  previewContent : list Node;
  nextNodeId : nat;
  store : list SectionData;
  _sectionList : option (list ref);
  _currentSection : option ref
}.

Definition set_cm (c : CodeMirror) (m : SectionManager) : SectionManager :=
  mkSectionManager c (previewContent m) (nextNodeId m) (store m)
    (_sectionList m) (_currentSection m).

Definition set_preview (p : list Node) (n : nat) (m : SectionManager)
  : SectionManager :=
  mkSectionManager (cm m) p n (store m) (_sectionList m) (_currentSection m).

Definition set_store (h : list SectionData) (m : SectionManager)
  : SectionManager :=
  mkSectionManager (cm m) (previewContent m) (nextNodeId m) h
    (_sectionList m) (_currentSection m).

Definition set_sectionList (l : option (list ref)) (m : SectionManager)
  : SectionManager :=
  mkSectionManager (cm m) (previewContent m) (nextNodeId m) (store m)
    l (_currentSection m).

Definition set_currentSection (r : option ref) (m : SectionManager)
  : SectionManager :=
  mkSectionManager (cm m) (previewContent m) (nextNodeId m) (store m)
    (_sectionList m) r.

Definition set_end (e : nat) (s : SectionData) : SectionData :=
  mkSectionData (start s) e (previewSectionEl s).

Definition set_previewSectionEl (q : option jQuery) (s : SectionData)
  : SectionData :=
  mkSectionData (start s) (end_ s) q.

(** [new SectionManager(cm, preview)]: no section object exists yet. *)
Definition newSectionManager (c : CodeMirror) (preview : list Node)
  (nodes : nat) : SectionManager :=
  mkSectionManager c preview nodes [] None None.

Definition _makeSectionData (start end_ : nat) : SectionData :=
  mkSectionData start end_ None.

(** [_addNewSection]: the new object is allocated at the end of the store,
    pushed on the list and made current. [push] on [null] throws. *)
Definition _addNewSection (start end_ : nat) : M SectionManager unit :=
  λ m,
    let newSection := length (store m) in
    let m1 := set_store (store m ++ [_makeSectionData start end_]) m in
    match _sectionList m1 with
    | None => Throws TypeError m1
    | Some l =>
        Returns tt
          (set_currentSection (Some newSection)
             (set_sectionList (Some (l ++ [newSection])) m1))
    end.

(** [getSectionList] *)
Definition getSectionList : M SectionManager (option (list ref)) :=
  gets _sectionList.

(** [_updateCurrentSectionEnd]: writes through the reference held in
    [_currentSection], whatever list that object belongs to; on [null] the
    assignment throws. *)
Definition _updateCurrentSectionEnd (e : nat) : M SectionManager unit :=
  λ m,
    match _currentSection m with
    | None => Throws TypeError m
    | Some r => Returns tt (set_store (alter (set_end e) r (store m)) m)
    end.

(** ** Line classification *)

(** The value of [isSection] the loop body computes for line [i]: the ATX
    test on the line's own state, else the setext test on the next line. *)
Definition isSectionAt (c : CodeMirror) (i : nat) : bool :=
  let state := getStateAfter c i in
  if truthy_opt (getLine c i)
     && base.header state
     && negb (base.quote state)
     && negb (base.list state)
     && negb (base.taskList state)
  then true
  else if truthy_opt (getLine c (i + 1))
          && from_option setextHeaderRx false (getLine c (i + 1))
  then true
  else false.

Section EachLineState.
(** The receiver is any object with a [cm] field. *)
Context {S : Type} (this_cm : S → CodeMirror).

(** The [for] loop with [remaining = lineLength - i] iterations to go. *)
Fixpoint eachLineLoop (iteratee : bool → nat → M S unit)
    (remaining i : nat) (isTrimming : bool) (trimCapture : jsstring)
  : M S unit :=
  match remaining with
  | 0 => ret tt
  | Datatypes.S remaining' =>
      let* c := gets this_cm in
      let isSection := isSectionAt c i in
      if isTrimming then
        match getLine c i with
        | None => throw TypeError
        | Some line =>
            let trimCapture' := trimCapture ++ trim line in
            if truthy trimCapture' then
              iteratee isSection i ;;;
              eachLineLoop iteratee remaining' (i + 1) false trimCapture'
            else
              eachLineLoop iteratee remaining' (i + 1) true trimCapture'
        end
      else
        iteratee isSection i ;;;
        eachLineLoop iteratee remaining' (i + 1) false trimCapture
  end.

Definition _eachLineState (iteratee : bool → nat → M S unit) : M S unit :=
  let* lineLength := gets (λ s, lineCount (this_cm s)) in
  eachLineLoop iteratee lineLength 0 true [].
End EachLineState.

(** The stream of [(isSection, lineNumber)] pairs the classifier hands to
    its iteratee, recorded by an iteratee that only logs them. *)
Definition lineStates (c : CodeMirror) : list (bool * nat) :=
  snd (finalState
         (_eachLineState fst
            (λ isSection i, modify (λ s, (s.1, s.2 ++ [(isSection, i)])))
            (c, []))).

(** ** Section list construction *)

Definition makeSectionList : M SectionManager unit :=
  modify (set_sectionList (Some [])) ;;;
  _eachLineState cm (λ isSection lineNumber,
    if (lineNumber =? 0) || isSection
    then _addNewSection lineNumber lineNumber
    else _updateCurrentSectionEnd lineNumber).

(** The [(start, end)] ranges of the objects a list refers to. *)
Definition ranges (h : list SectionData) (l : list ref) : list (nat * nat) :=
  omap (λ r, (λ s, (start s, end_ s)) <$> h !! r) l.

Definition sectionRanges (m : SectionManager) : option (list (nat * nat)) :=
  ranges (store m) <$> _sectionList m.

(** ** Line lookup *)

(** [sectionList[sectionIndex].end]; [None] when the element is [undefined]
    and the property access throws. *)
Definition endAt (h : list SectionData) (sectionList : list ref)
    (sectionIndex : nat) : option nat :=
  r ← sectionList !! sectionIndex; end_ <$> h !! r.

(** The [for] loop of [sectionByLine] with [remaining = sectionLength -
    sectionIndex] iterations to go; the result is the value of [sectionIndex]
    when the loop is left, [None] when the body throws. *)
Fixpoint sectionByLineLoop (h : list SectionData) (sectionList : list ref)
    (line remaining sectionIndex : nat) : option nat :=
  match remaining with
  | 0 => Some sectionIndex
  | Datatypes.S remaining' =>
      match endAt h sectionList sectionIndex with
      | None => None
      | Some e =>
          if line <=? e then Some sectionIndex
          else sectionByLineLoop h sectionList line remaining'
                 (sectionIndex + 1)
      end
  end.

(** [array[z]] for an integer index: [undefined] outside the array. *)
Definition elementAt {A} (l : list A) (z : Z) : option A :=
  if (z <? 0)%Z then None else l !! Z.to_nat z.

(** [sectionByLine]: the result is the reference found, or [undefined]. *)
Definition sectionByLine (line : nat) : M SectionManager (option ref) :=
  λ m,
    match _sectionList m with
    | None => Throws TypeError m
    | Some sectionList =>
        let sectionLength := length sectionList in
        match sectionByLineLoop (store m) sectionList line sectionLength 0 with
        | None => Throws TypeError m
        | Some sectionIndex =>
            let sectionIndex : Z :=
              if sectionIndex =? sectionLength
              then (Z.of_nat sectionLength - 1)%Z
              else Z.of_nat sectionIndex in
            Returns (elementAt sectionList sectionIndex) m
        end
    end.

(** ** Preview alignment *)

(** One call of the [each] callback on [el], with the closure variables
    [sections] and [lastSection]. *)
Definition previewStep (acc : list (list Node) * nat) (el : Node)
  : list (list Node) * nat :=
  let '(sections, lastSection) := acc in
  let '(sections, lastSection) :=
    if headingTagRx (tagName el)
       && negb (length (default [] (sections !! lastSection)) =? 0)
    then (sections ++ [[]], lastSection + 1)
    else (sections, lastSection) in
  (alter (λ group, group ++ [el]) lastSection sections, lastSection).

Definition groupElements (els : list Node) : list (list Node) :=
  (fold_left previewStep els ([[]], 0)).1.

Definition _getPreviewSections : M SectionManager (list (list Node)) :=
  gets (λ m,
    groupElements
      (filter (λ n, nodeType n = ELEMENT_NODE) (previewContent m))).

(** [String(index)] *)
Definition toString (n : nat) : jsstring :=
  js (NilZero.string_of_uint (Nat.to_uint n)).

(** jQuery's [$(childs).wrapAll($sectionDiv).parent()] on top-level nodes:
    nothing happens for an empty set, whose parent set is empty; otherwise a
    new [div] takes the place of the first child, all the children move
    into it, and it is the one parent. *)
Definition wrapAll (index : nat) (childs : list Node) : M SectionManager jQuery :=
  λ m,
    match childs with
    | [] => Returns [] m
    | first :: _ =>
        let sectionDiv :=
          mkNode (nextNodeId m) ELEMENT_NODE (js "DIV")
            (js "content-id-" ++ toString index) childs in
        let moved := nodeId <$> childs in
        let content :=
          flat_map (λ n,
            if nodeId n =? nodeId first then [sectionDiv]
            else if bool_decide (nodeId n ∈ moved) then []
            else [n]) (previewContent m) in
        Returns [nodeId sectionDiv]
          (set_preview content (Datatypes.S (nextNodeId m)) m)
    end.

(** The callback of [sections.forEach]: an index without a section is
    skipped; reading an element of a [null] list throws. *)
Definition matchCallback (item : nat * list Node) : M SectionManager unit :=
  let '(index, childs) := item in
  let* sectionList := gets _sectionList in
  match sectionList with
  | None => throw TypeError
  | Some l =>
      match l !! index with
      | None => ret tt
      | Some r =>
          let* parent := wrapAll index childs in
          modify (λ m,
            set_store
              (alter (set_previewSectionEl (Some parent)) r (store m)) m)
      end
  end.

Definition _matchPreviewSectionsWithSectionlist
    (sections : list (list Node)) : M SectionManager unit :=
  forEach matchCallback (imap pair sections).

Definition sectionMatch : M SectionManager unit :=
  let* sectionList := gets _sectionList in
  match sectionList with
  | None => ret tt
  | Some _ =>
      let* sections := _getPreviewSections in
      _matchPreviewSectionsWithSectionlist sections
  end.

(** * Notions used in the statements *)

(** ** Lines and flags *)

(** A line is blank when nothing is left of it after trimming. *)
Definition isBlank (line : jsstring) : bool := negb (truthy (trim line)).

Fixpoint firstNonBlankFrom (lines : list jsstring) (i : nat) : option nat :=
  match lines with
  | [] => None
  | line :: lines' =>
      if isBlank line then firstNonBlankFrom lines' (Datatypes.S i)
      else Some i
  end.

(** The index of the document's first non-blank line, if it has one. *)
Definition firstNonBlank (c : CodeMirror) : option nat :=
  firstNonBlankFrom (docLines c) 0.

Definition classify (c : CodeMirror) (i : nat) : bool * nat :=
  (isSectionAt c i, i).

(** Every line from the first non-blank one to the last, each with its
    flag. *)
Definition classifiedLines (c : CodeMirror) : list (bool * nat) :=
  match firstNonBlank c with
  | None => []
  | Some f => classify c <$> seq f (lineCount c - f)
  end.

(** The ATX test of the loop body on line [i]. *)
Definition atxAt (c : CodeMirror) (i : nat) : bool :=
  truthy_opt (getLine c i)
  && base.header (getStateAfter c i)
  && negb (base.quote (getStateAfter c i))
  && negb (base.list (getStateAfter c i))
  && negb (base.taskList (getStateAfter c i)).

(** The setext test of the loop body on line [i]: line [i + 1] exists and
    matches [setextHeaderRx]. *)
Definition nextLineIsUnderline (c : CodeMirror) (i : nat) : bool :=
  from_option setextHeaderRx false (getLine c (i + 1)).

(** The oracle marks [i] as a heading line outside quote, list and task
    list. *)
Definition headingOutsideContext (c : CodeMirror) (i : nat) : Prop :=
  base.header (getStateAfter c i) = true
  ∧ base.quote (getStateAfter c i) = false
  ∧ base.list (getStateAfter c i) = false
  ∧ base.taskList (getStateAfter c i) = false.

(** A call of the iteratee opens a section on line 0 and on flagged lines. *)
Definition opens (p : bool * nat) : bool := (p.2 =? 0) || p.1.

(** ** Ranges and the list under construction *)

Definition rangeOf (s : SectionData) : nat * nat := (start s, end_ s).

(** What [_updateCurrentSectionEnd] does to the ranges when the current
    section is the last one of the list. *)
Definition extendLast (n : nat) (l : list (nat * nat)) : list (nat * nat) :=
  alter (λ p, (p.1, n)) (length l - 1) l.

(** The ranges of the list under construction after the given calls of the
    iteratee, [None] when one of them throws. [currentIsNull] tells whether
    [_currentSection] is [null]; [l] holds the ranges pushed so far. Before
    the first push the current section, if any, belongs to an older list,
    and extending it leaves the new list empty. *)
Fixpoint build (currentIsNull : bool) (l : list (nat * nat))
    (evs : list (bool * nat)) : option (list (nat * nat)) :=
  match evs with
  | [] => Some l
  | (isSection, lineNumber) :: evs' =>
      if (lineNumber =? 0) || isSection
      then build false (l ++ [(lineNumber, lineNumber)]) evs'
      else match l with
           | [] => if currentIsNull then None else build false [] evs'
           | _ :: _ => build false (extendLast lineNumber l) evs'
           end
  end.

(** The manager while [makeSectionList] runs: the objects pushed so far are
    the last ones of the store, in order, and the last of them is current. *)
Definition buildingOn (base : nat) (news : list SectionData)
    (m : SectionManager) : Prop :=
  (∃ pre, store m = pre ++ news ∧ length pre = base)
  ∧ _sectionList m = Some (seq base (length news))
  ∧ (news ≠ [] → _currentSection m = Some (base + length news - 1)).

(** The iteratee [makeSectionList] passes to the classifier. *)
Definition sectionIteratee (isSection : bool) (lineNumber : nat)
  : M SectionManager unit :=
  if (lineNumber =? 0) || isSection
  then _addNewSection lineNumber lineNumber
  else _updateCurrentSectionEnd lineNumber.

(** What a run leaves untouched. *)
Definition sameSurroundings (m m' : SectionManager) : Prop :=
  cm m' = cm m ∧ previewContent m' = previewContent m
  ∧ nextNodeId m' = nextNodeId m.

(** [tiles lo l hi]: the ranges of [l], in order, cut the lines
    [lo, ..., hi - 1] into consecutive non-empty pieces. *)
Fixpoint tiles (lo : nat) (l : list (nat * nat)) (hi : nat) : Prop :=
  match l with
  | [] => lo = hi
  | (s, e) :: l' => s = lo ∧ s ≤ e ∧ tiles (S e) l' hi
  end.

(** The index at which the loop of [sectionByLine] stops: the number of
    leading ranges that end before [line]. *)
Fixpoint firstReaching (line : nat) (l : list (nat * nat)) : nat :=
  match l with
  | [] => 0
  | (_, e) :: l' => if line <=? e then 0 else S (firstReaching line l')
  end.

(** The [i]-th section of the list: its reference, start and end. *)
Definition nthSection (m : SectionManager) (i : nat)
  : option (ref * nat * nat) :=
  l ← _sectionList m; r ← l !! i; s ← store m !! r;
  Some (r, start s, end_ s).

(** ** The wording of the specification *)

(** The underline pattern in the words of the specification: a non-empty
    run of ['='] or of ['-'] between two runs of whitespace. *)
Definition underlineAsClaimed (s : jsstring) : Prop :=
  ∃ before body after,
    s = before ++ body ++ after
    ∧ Forall (λ x, isWhiteSpace x = true) before
    ∧ Forall (λ x, isWhiteSpace x = true) after
    ∧ body ≠ []
    ∧ (Forall (λ x, x = EQUALS) body ∨ Forall (λ x, x = HYPHEN) body).

(** The grouping rule in the words of the specification, for a given test
    of heading tags: [closed] are the groups already closed, [current] the
    group being filled. A heading element closes a non-empty current group
    and opens a new one; any other element, and a heading met while the
    current group is empty, joins the current group. *)
Fixpoint groupBy (isHeading : jsstring → bool) (closed : list (list Node))
    (current : list Node) (els : list Node) : list (list Node) :=
  match els with
  | [] => closed ++ [current]
  | el :: els' =>
      if isHeading (tagName el) && negb (length current =? 0)
      then groupBy isHeading (closed ++ [current]) [el] els'
      else groupBy isHeading closed (current ++ [el]) els'
  end.

(** The tag name is one of the six heading tags. *)
Definition isHeadingTag (t : jsstring) : bool := bool_decide (t ∈ headingTags).

(** ** Sample documents and previews *)

Definition plain : base.state := base.mk false false false false.
Definition atx : base.state := base.mk true false false false.
Definition quotedHeading : base.state := base.mk true true false false.

(** Two lines, the first one empty, no heading. *)
Definition leadingBlankDoc : CodeMirror :=
  mkCodeMirror [js ""; js "body"] (λ _, plain).

(** The document of the end-to-end example, under any heading oracle. *)
Definition exampleLines : list jsstring :=
  [js ""; js "# Title"; js "body1"; js "body2"; js "## Sub"; js "body3"].

Definition exampleDoc : CodeMirror :=
  mkCodeMirror exampleLines (λ i, if (i =? 1) || (i =? 4) then atx else plain).

(** The manager of the example document once its list is built. *)
Definition exampleManager : SectionManager :=
  finalState (makeSectionList (newSectionManager exampleDoc [] 0)).

(** A one-line document, and the document an edit turns it into. *)
Definition introDoc : CodeMirror := mkCodeMirror [js "intro"] (λ _, plain).

Definition editedDoc : CodeMirror :=
  mkCodeMirror [js ""; js "intro"; js "# Heading"; js "text"]
    (λ i, if i =? 2 then atx else plain).

(** A title whose underline is indented with a tab. *)
Definition tabDoc : CodeMirror :=
  mkCodeMirror [js "intro"; js "Title"; 9%N :: js "==="] (λ _, plain).

(** A setext title and its underline after one line of text. *)
Definition setextDoc : CodeMirror :=
  mkCodeMirror [js "intro"; js "Title"; js "  ---  "] (λ _, plain).

(** A heading inside a blockquote, followed by a line of hyphens. *)
Definition quoteDoc : CodeMirror :=
  mkCodeMirror [js "intro"; js "> # Quoted"; js "---"]
    (λ i, if i =? 1 then quotedHeading else plain).

(** An element node with a tag name and nothing else. *)
Definition element (id : nat) (tag : string) : Node :=
  mkNode id ELEMENT_NODE (js tag) [] [].

(** A preview without any element, and a built list. *)
Definition emptyPreviewManager : SectionManager :=
  set_preview [] 0 exampleManager.

(** ** Notions for the further properties *)

(** What a run of [makeSectionList] started on [m0] keeps of the objects of
    [m0]: none disappears; each keeps its [start] and its link, and is
    unchanged altogether unless it is the current section of [m0]; the
    objects made since have no link; and the current section is the one of
    [m0] or an object made since. *)
Definition keepsOld (m0 m : SectionManager) : Prop :=
  length (store m0) ≤ length (store m)
  ∧ (∀ r, r < length (store m0) →
       start <$> store m !! r = start <$> store m0 !! r
       ∧ previewSectionEl <$> store m !! r
         = previewSectionEl <$> store m0 !! r
       ∧ (_currentSection m0 ≠ Some r → store m !! r = store m0 !! r))
  ∧ (∀ r, length (store m0) ≤ r < length (store m) →
       previewSectionEl <$> store m !! r = Some None)
  ∧ (_currentSection m = _currentSection m0
     ∨ ∃ r, _currentSection m = Some r ∧ length (store m0) ≤ r).

(** The index [sectionByLine] ends with on a non-empty list of the given
    ranges: the first range reaching [line], else the last one. *)
Definition chosenIndex (line : nat) (l : list (nat * nat)) : nat :=
  if firstReaching line l =? length l then length l - 1
  else firstReaching line l.

(** The value of a call, whatever state it ends in. *)
Definition valueOf {S A} (o : outcome S A) : A + Error :=
  match o with
  | Returns a _ => inl a
  | Throws e _ => inr e
  end.

(** The references of a list all point to objects of the store. *)
Definition validRefs (h : list SectionData) (l : list ref) : Prop :=
  ∀ r, r ∈ l → is_Some (h !! r).

(** The element nodes among the children of the preview. *)
Definition previewElements (m : SectionManager) : list Node :=
  filter (λ n, nodeType n = ELEMENT_NODE) (previewContent m).

(** The [div] that [sectionMatch] wraps around group [index]. *)
Definition sectionDiv (id index : nat) (childs : list Node) : Node :=
  mkNode id ELEMENT_NODE (js "DIV") (js "content-id-" ++ toString index)
    childs.

(** The children of the preview have distinct identities, all older than
    the next node to be created. *)
Definition wellFormedPreview (m : SectionManager) : Prop :=
  NoDup (nodeId <$> previewContent m)
  ∧ ∀ n, n ∈ previewContent m → nodeId n < nextNodeId m.

(** A group that begins with a heading element, and a group that holds no
    heading element after its first place. *)
Definition headed (isHeading : jsstring → bool) (g : list Node) : Prop :=
  ∃ h rest, g = h :: rest ∧ isHeading (tagName h) = true.

Definition plainTail (isHeading : jsstring → bool) (g : list Node) : Prop :=
  Forall (λ el, isHeading (tagName el) = false) (tail g).

(** What [wrapAll] does with one child [n] of the preview when it wraps the
    nodes whose identities are [moved], [first] being the first of them, in
    the new node [w]. *)
Definition wrapStep (w first : Node) (moved : list nat) (n : Node)
  : list Node :=
  if nodeId n =? nodeId first then [w]
  else if bool_decide (nodeId n ∈ moved) then []
  else [n].

(** The nodes of the preview that are not elements. *)
Definition previewOthers (m : SectionManager) : list Node :=
  filter (λ n, nodeType n ≠ ELEMENT_NODE) (previewContent m).

(** * Properties *)

(** ** The classifier's stream *)

Lemma firstNonBlankFrom_bounds lines i f :
  firstNonBlankFrom lines i = Some f → i ≤ f < i + length lines.
Proof.
  revert i. induction lines as [|line lines IH]; intros i; simpl; [done|].
  destruct (isBlank line).
  - intros H. apply IH in H. lia.
  - intros [= <-]. lia.
Qed.

Lemma firstNonBlankFrom_lookup lines i f :
  firstNonBlankFrom lines i = Some f →
  (∃ line, lines !! (f - i) = Some line ∧ isBlank line = false)
  ∧ ∀ j line, i ≤ j < f → lines !! (j - i) = Some line → isBlank line = true.
Proof.
  revert i. induction lines as [|line lines IH]; intros i; simpl; [done|].
  destruct (isBlank line) eqn:Hb.
  - intros H. pose proof (firstNonBlankFrom_bounds _ _ _ H) as Hf.
    destruct (IH _ H) as [(l & Hl & Hnb) Hlt]. split.
    + exists l. split; [|done].
      replace (f - i) with (Datatypes.S (f - Datatypes.S i)) by lia. done.
    + intros j l' Hj Hl'. destruct (decide (j = i)) as [->|Hne].
      * rewrite Nat.sub_diag in Hl'. simpl in Hl'. by simplify_eq.
      * apply (Hlt j l'); [lia|].
        replace (j - i) with (Datatypes.S (j - Datatypes.S i)) in Hl' by lia.
        done.
  - intros [= <-]. split.
    + exists line. rewrite Nat.sub_diag. done.
    + intros j l' Hj. lia.
Qed.

Lemma firstNonBlank_lt c f : firstNonBlank c = Some f → f < lineCount c.
Proof.
  intros H. apply firstNonBlankFrom_bounds in H. unfold lineCount. lia.
Qed.

Lemma firstNonBlank_line c f :
  firstNonBlank c = Some f →
  (∃ line, getLine c f = Some line ∧ isBlank line = false)
  ∧ ∀ j line, j < f → getLine c j = Some line → isBlank line = true.
Proof.
  intros H. destruct (firstNonBlankFrom_lookup _ _ _ H) as [(l & Hl & Hb) Hlt].
  rewrite Nat.sub_0_r in Hl. split; [by exists l|].
  intros j l' Hj Hl'. apply (Hlt j l'); [lia|]. by rewrite Nat.sub_0_r.
Qed.

Section EachLineFacts.
Context {S : Type} (this_cm : S → CodeMirror).
Context (iteratee : bool → nat → M S unit).
Hypothesis iteratee_cm : ∀ b n s s',
  iteratee b n s = Returns tt s' → this_cm s' = this_cm s.

Lemma eachLineLoop_emitting remaining i trimCapture s :
  eachLineLoop this_cm iteratee remaining i false trimCapture s
  = forEach (λ p, iteratee p.1 p.2)
      (classify (this_cm s) <$> seq i remaining) s.
Proof using iteratee_cm.
  revert i s. induction remaining as [|remaining IH]; intros i s; [done|].
  cbn [eachLineLoop seq fmap list_fmap forEach].
  unfold bind at 1 3. unfold gets, bind. simpl.
  destruct (iteratee (isSectionAt (this_cm s) i) i s) as [[] s'|e s'] eqn:Hit;
    [|done].
  rewrite Nat.add_1_r, IH. by rewrite (iteratee_cm _ _ _ _ Hit).
Qed.

Lemma eachLineLoop_trimming remaining i s :
  i + remaining = lineCount (this_cm s) →
  eachLineLoop this_cm iteratee remaining i true [] s
  = forEach (λ p, iteratee p.1 p.2)
      (match firstNonBlankFrom (drop i (docLines (this_cm s))) i with
       | None => []
       | Some f => classify (this_cm s) <$> seq f (i + remaining - f)
       end) s.
Proof using iteratee_cm.
  revert i. induction remaining as [|remaining IH]; intros i Hlen.
  - rewrite drop_ge by (unfold lineCount in Hlen; lia). done.
  - cbn [eachLineLoop]. unfold bind at 1. unfold gets.
    destruct (lookup_lt_is_Some_2 (docLines (this_cm s)) i) as [line Hline].
    { unfold lineCount in Hlen. lia. }
    unfold getLine. rewrite Hline, (drop_S _ _ _ Hline). simpl.
    unfold isBlank. destruct (trim line) as [|ch rest] eqn:Ht; simpl.
    2: replace (i + Datatypes.S remaining - i) with (Datatypes.S remaining)
        by lia.
    + rewrite Nat.add_1_r, IH by lia.
      by replace (Datatypes.S i + remaining) with (i + Datatypes.S remaining)
        by lia.
    + cbn [seq fmap list_fmap forEach]. unfold bind. simpl.
      destruct (iteratee (isSectionAt (this_cm s) i) i s)
        as [[] s'|e s'] eqn:Hit; [|done].
      rewrite Nat.add_1_r, eachLineLoop_emitting.
      by rewrite (iteratee_cm _ _ _ _ Hit).
Qed.

(** The classifier calls its iteratee on the classified lines, in order. *)
Lemma _eachLineState_forEach s :
  _eachLineState this_cm iteratee s
  = forEach (λ p, iteratee p.1 p.2) (classifiedLines (this_cm s)) s.
Proof using iteratee_cm.
  unfold _eachLineState, bind, gets.
  rewrite eachLineLoop_trimming by done.
  by rewrite drop_0.
Qed.
End EachLineFacts.

Lemma forEach_log (c : CodeMirror) (evs log : list (bool * nat)) :
  forEach (λ p, modify (λ s : CodeMirror * list (bool * nat),
                          (s.1, s.2 ++ [(p.1, p.2)]))) evs (c, log)
  = Returns tt (c, log ++ evs).
Proof.
  revert log. induction evs as [|[b n] evs IH]; intros log; simpl.
  - by rewrite app_nil_r.
  - unfold bind, modify. simpl. rewrite IH. by rewrite <- app_assoc.
Qed.

(** The recorded stream is the classified lines. *)
Lemma lineStates_classified c : lineStates c = classifiedLines c.
Proof.
  unfold lineStates.
  rewrite (_eachLineState_forEach fst); [|by intros b n [] [] [= <- _]].
  simpl. by rewrite forEach_log.
Qed.

(** ** The section list as a function of the stream *)

Lemma ranges_fresh pre news :
  ranges (pre ++ news) (seq (length pre) (length news)) = rangeOf <$> news.
Proof.
  unfold ranges. induction news as [|x news IH] using rev_ind; [done|].
  rewrite length_app, Nat.add_1_r, seq_S, omap_app, fmap_app. simpl.
  rewrite (app_assoc pre news [x]).
  rewrite (list_lookup_middle (pre ++ news) [] x)
    by (by rewrite length_app).
  simpl. f_equal. rewrite <- IH. apply list_omap_ext.
  apply Forall_Forall2_diag, Forall_forall. intros r Hr.
  apply in_seq in Hr.
  rewrite (lookup_app_l (pre ++ news)); [done|]. rewrite length_app. lia.
Qed.

Lemma buildingOn_ranges base news m :
  buildingOn base news m → sectionRanges m = Some (rangeOf <$> news).
Proof.
  intros [(pre & Hst & <-) [Hl _]]. unfold sectionRanges.
  rewrite Hl, Hst. simpl. by rewrite ranges_fresh.
Qed.

Lemma sectionIteratee_cm b n m m' :
  sectionIteratee b n m = Returns tt m' → cm m' = cm m.
Proof.
  unfold sectionIteratee, _addNewSection, _updateCurrentSectionEnd.
  destruct ((n =? 0) || b); simpl.
  - destruct (_sectionList m); [|done]. by intros [= <-].
  - destruct (_currentSection m); [|done]. by intros [= <-].
Qed.

Lemma forEach_build evs : ∀ m base news,
  buildingOn base news m →
  match build (bool_decide (_currentSection m = None)) (rangeOf <$> news) evs
  with
  | Some l =>
      ∃ m' news', forEach (λ p, sectionIteratee p.1 p.2) evs m = Returns tt m'
        ∧ buildingOn base news' m' ∧ rangeOf <$> news' = l
        ∧ sameSurroundings m m'
  | None =>
      ∃ m', forEach (λ p, sectionIteratee p.1 p.2) evs m = Throws TypeError m'
        ∧ _sectionList m' = Some [] ∧ sameSurroundings m m'
  end.
Proof.
  induction evs as [|[b n] evs IH]; intros m base news Hm.
  { simpl. exists m, news. by split; [|split; [|split]]. }
  cbn [build forEach]. unfold bind, sectionIteratee. cbn [fst snd].
  destruct Hm as [(pre & Hst & Hpre) [Hl Hcur]].
  destruct ((n =? 0) || b).
  - (* a new section *)
    unfold _addNewSection. simpl. rewrite Hl.
    set (m1 := set_currentSection _ _).
    assert (buildingOn base (news ++ [_makeSectionData n n]) m1) as Hm1.
    { repeat split.
      - exists pre. subst m1. simpl. by rewrite Hst, app_assoc.
      - subst m1. simpl. rewrite length_app, Nat.add_1_r, seq_S.
        do 3 f_equal. rewrite Hst, length_app. lia.
      - intros _. subst m1. simpl. rewrite Hst, !length_app. simpl.
        f_equal. lia. }
    specialize (IH m1 base _ Hm1).
    rewrite fmap_snoc in IH. simpl in IH. cbn [rangeOf start end_] in IH.
    destruct (build false _ evs) as [l|].
    + destruct IH as (m' & news' & Hrun & ? & ? & ?). by exists m', news'.
    + destruct IH as (m' & Hrun & ? & ?). by exists m'.
  - unfold _updateCurrentSectionEnd.
    destruct news as [|x news].
    + (* nothing pushed yet: the current section is an old one, or null *)
      simpl. destruct (_currentSection m) as [r|] eqn:Hr.
      * rewrite bool_decide_eq_false_2 by done.
        set (m1 := set_store _ m).
        assert (buildingOn base [] m1) as Hm1.
        { repeat split; [|done..].
          exists (alter (set_end n) r (store m)). subst m1. simpl.
          rewrite app_nil_r, length_alter, Hst, app_nil_r. done. }
        specialize (IH m1 base _ Hm1). simpl in IH.
        rewrite Hr in IH. rewrite bool_decide_eq_false_2 in IH by done.
        destruct (build false [] evs) as [l|].
        -- destruct IH as (m' & news' & Hrun & ? & ? & ?). by exists m', news'.
        -- destruct IH as (m' & Hrun & ? & ?). by exists m'.
      * rewrite bool_decide_eq_true_2 by done. exists m. by repeat split.
    + (* the current section is the last one pushed *)
      rewrite Hcur by done. cbn [fmap list_fmap].
      set (news0 := x :: news) in *.
      set (m1 := set_store _ m).
      set (news1 := alter (set_end n) (length news0 - 1) news0).
      assert (buildingOn base news1 m1) as Hm1.
      { repeat split.
        - exists pre. subst m1 news1. simpl. split; [|done].
          rewrite Hst, alter_app_r_alt by lia. do 2 f_equal. lia.
        - subst m1 news1. simpl. by rewrite length_alter.
        - intros _. subst m1 news1. simpl. rewrite length_alter.
          by apply Hcur. }
      specialize (IH m1 base _ Hm1).
      assert (_currentSection m1 = Some (base + length news0 - 1)) as Hc1
        by (by apply Hcur).
      rewrite Hc1, bool_decide_eq_false_2 in IH by done.
      assert (rangeOf <$> news1 = extendLast n (rangeOf <$> news0)) as Hext.
      { subst news1. unfold extendLast. rewrite length_fmap.
        apply list_fmap_alter. by apply Forall_forall. }
      rewrite Hext in IH. subst news0. cbn [fmap list_fmap] in IH.
      destruct (build false _ evs) as [l|].
      * destruct IH as (m' & news' & Hrun & ? & ? & ?). by exists m', news'.
      * destruct IH as (m' & Hrun & ? & ?). by exists m'.
Qed.

Lemma makeSectionList_forEach m :
  makeSectionList m
  = forEach (λ p, sectionIteratee p.1 p.2) (classifiedLines (cm m))
      (set_sectionList (Some []) m).
Proof.
  unfold makeSectionList, bind, modify.
  rewrite (_eachLineState_forEach cm (λ b n, sectionIteratee b n)); [done|].
  apply sectionIteratee_cm.
Qed.

(** [makeSectionList] returns with the ranges [build] gives, and throws
    where [build] has no result. *)
Lemma makeSectionList_build m :
  match build (bool_decide (_currentSection m = None)) []
          (classifiedLines (cm m)) with
  | Some l =>
      ∃ m' news, makeSectionList m = Returns tt m'
        ∧ buildingOn (length (store m)) news m' ∧ rangeOf <$> news = l
        ∧ sameSurroundings m m'
  | None =>
      ∃ m', makeSectionList m = Throws TypeError m'
        ∧ _sectionList m' = Some [] ∧ sameSurroundings m m'
  end.
Proof.
  rewrite makeSectionList_forEach.
  apply (forEach_build _ (set_sectionList (Some []) m) (length (store m)) []).
  repeat split; [|done..]. exists (store m). simpl. by rewrite app_nil_r.
Qed.

(** ** Shape of the built list *)

Lemma tiles_snoc lo l s e hi :
  tiles lo (l ++ [(s, e)]) hi ↔ tiles lo l s ∧ s ≤ e ∧ hi = S e.
Proof.
  revert lo. induction l as [|[s' e'] l IH]; intros lo; simpl.
  - intuition lia.
  - rewrite IH. intuition lia.
Qed.

Lemma tiles_le lo l hi : tiles lo l hi → lo ≤ hi.
Proof.
  revert lo. induction l as [|[s e] l IH]; intros lo; simpl; [lia|].
  intros (-> & ? & H). apply IH in H. lia.
Qed.

Lemma extendLast_snoc n l s e :
  extendLast n (l ++ [(s, e)]) = l ++ [(s, n)].
Proof.
  unfold extendLast. rewrite length_app, Nat.add_sub.
  rewrite <- (Nat.add_0_r (length l)) at 1. by rewrite alter_app_r.
Qed.

Lemma extendLast_fst n (l : list (nat * nat)) :
  fst <$> extendLast n l = fst <$> l.
Proof.
  unfold extendLast.
  rewrite (list_fmap_alter fst _ id) by (by apply Forall_forall).
  by apply list_alter_id.
Qed.

Lemma extendLast_nil n l : extendLast n l = [] → l = [].
Proof.
  intros H. apply (f_equal length) in H. unfold extendLast in H.
  rewrite length_alter in H. by destruct l.
Qed.

Lemma tiles_extendLast lo l hi :
  l ≠ [] → tiles lo l hi → tiles lo (extendLast hi l) (S hi).
Proof.
  destruct l as [|p l _] using rev_ind; [done|]. intros _.
  destruct p as [s e]. rewrite extendLast_snoc, !tiles_snoc.
  intros (? & ? & ->). repeat split; [done|lia].
Qed.

(** The sections of the list start where the iteratee was called on line 0
    or on a flagged line, and nowhere else. *)
Lemma build_starts evs : ∀ currentIsNull l l',
  build currentIsNull l evs = Some l' →
  l'.*1 = l.*1 ++ (filter (λ p, opens p = true) evs).*2.
Proof.
  induction evs as [|[b n] evs IH]; intros cin l l'; simpl.
  - intros [= <-]. by rewrite app_nil_r.
  - destruct ((n =? 0) || b) eqn:Ho.
    + rewrite filter_cons_True by done.
      intros H. apply IH in H. rewrite H, fmap_app, <- app_assoc. done.
    + rewrite filter_cons_False by (unfold opens; simpl; congruence).
      destruct l as [|p l].
      * destruct cin; [done|]. apply IH.
      * intros H. apply IH in H. by rewrite H, extendLast_fst.
Qed.

Section BuildOnLines.
Context (c : CodeMirror).

(** Once the list is non-empty every later line lands in it. *)
Lemma build_tiles k : ∀ i l lo,
  l ≠ [] → tiles lo l i →
  ∃ l', build false l (classify c <$> seq i k) = Some l'
        ∧ l' ≠ [] ∧ tiles lo l' (i + k).
Proof.
  induction k as [|k IH]; intros i l lo Hne Hl.
  - exists l. by rewrite Nat.add_0_r.
  - cbn [seq fmap list_fmap build classify].
    replace (i + S k) with (S i + k) by lia.
    destruct ((i =? 0) || isSectionAt c i).
    + apply IH; [by destruct l|]. apply tiles_snoc. by repeat split.
    + destruct l as [|p l]; [done|]. apply IH.
      * intros H. by apply extendLast_nil in H.
      * by apply tiles_extendLast.
Qed.

(** Lines met while the list is still empty are lost to it. *)
Lemma build_from_empty k : ∀ i l',
  build false [] (classify c <$> seq i k) = Some l' →
  l' = [] ∨ ∃ lo, i ≤ lo ∧ tiles lo l' (i + k).
Proof.
  induction k as [|k IH]; intros i l'.
  - intros [= <-]. by left.
  - cbn [seq fmap list_fmap build classify].
    replace (i + S k) with (S i + k) by lia.
    destruct ((i =? 0) || isSectionAt c i).
    + intros H. right. exists i. split; [done|].
      destruct (build_tiles k (S i) [(i, i)] i) as (l2 & Hl2 & _ & Ht);
        [done|by simpl|].
      simpl in H. by simplify_eq.
    + intros H. apply IH in H as [->|(lo & ? & ?)]; [by left|].
      right. exists lo. split; [lia|done].
Qed.

Lemma build_total k i : is_Some (build false [] (classify c <$> seq i k)).
Proof.
  revert i. induction k as [|k IH]; intros i; [by eexists|].
  cbn [seq fmap list_fmap build classify].
  destruct ((i =? 0) || isSectionAt c i); [|apply IH].
  destruct (build_tiles k (S i) [(i, i)] i) as (l2 & Hl2 & _);
    [done|by simpl|].
  simpl. by eexists.
Qed.

(** The stream of the whole document. *)
Lemma build_classifiedLines_tiles f currentIsNull :
  firstNonBlank c = Some f →
  f = 0 ∨ isSectionAt c f = true →
  ∃ e l, build currentIsNull [] (classifiedLines c) = Some ((f, e) :: l)
         ∧ tiles f ((f, e) :: l) (lineCount c).
Proof.
  intros Hf Hopen. unfold classifiedLines. rewrite Hf.
  pose proof (firstNonBlank_lt _ _ Hf) as Hlt.
  destruct (lineCount c - f) as [|k] eqn:Hk; [lia|].
  cbn [seq fmap list_fmap build classify].
  replace ((f =? 0) || isSectionAt c f) with true.
  2:{ destruct Hopen as [->| ->]; [done|]. by rewrite orb_true_r. }
  destruct (build_tiles k (S f) [(f, f)] f) as (l2 & Hl2 & Hne & Ht);
    [done|by simpl|].
  simpl. rewrite Hl2. replace (S f + k) with (lineCount c) in Ht by lia.
  destruct l2 as [|[s e] l2]; [done|]. destruct Ht as (-> & ? & ?).
  by exists e, l2.
Qed.

Lemma build_classifiedLines_shape currentIsNull l :
  build currentIsNull [] (classifiedLines c) = Some l →
  l = [] ∨ ∃ lo f, firstNonBlank c = Some f ∧ f ≤ lo
                   ∧ tiles lo l (lineCount c).
Proof.
  unfold classifiedLines. destruct (firstNonBlank c) as [f|] eqn:Hf.
  2:{ intros [= <-]. by left. }
  pose proof (firstNonBlank_lt _ _ Hf) as Hlt.
  destruct (lineCount c - f) as [|k] eqn:Hk; [lia|].
  cbn [seq fmap list_fmap build classify].
  replace (lineCount c) with (S f + k) by lia.
  destruct ((f =? 0) || isSectionAt c f).
  - intros H. right. exists f, f. repeat split; [done|].
    destruct (build_tiles k (S f) [(f, f)] f) as (l2 & Hl2 & _ & Ht);
      [done|by simpl|].
    simpl in H. by simplify_eq.
  - destruct currentIsNull; [done|].
    intros H. apply build_from_empty in H as [->|(lo & ? & ?)]; [by left|].
    right. exists lo, f. repeat split; [lia|done].
Qed.

(** [build] fails on one kind of document only. *)
Lemma build_classifiedLines_None currentIsNull :
  build currentIsNull [] (classifiedLines c) = None ↔
  currentIsNull = true
  ∧ ∃ f, firstNonBlank c = Some f ∧ f ≠ 0 ∧ isSectionAt c f = false.
Proof.
  unfold classifiedLines. destruct (firstNonBlank c) as [f|] eqn:Hf.
  2:{ simpl. split; [done|]. by intros (_ & f & ? & _). }
  pose proof (firstNonBlank_lt _ _ Hf) as Hlt.
  destruct (lineCount c - f) as [|k] eqn:Hk; [lia|].
  cbn [seq fmap list_fmap build classify].
  destruct (f =? 0) eqn:H0; simpl.
  { apply Nat.eqb_eq in H0.
    destruct (build_tiles k (S f) [(f, f)] f) as (l2 & Hl2 & _);
      [done|by simpl|].
    simpl in Hl2. rewrite Hl2. split; [done|].
    intros (_ & f' & ? & ? & _). congruence. }
  apply Nat.eqb_neq in H0.
  destruct (isSectionAt c f) eqn:Hs.
  { destruct (build_tiles k (S f) [(f, f)] f) as (l2 & Hl2 & _);
      [done|by simpl|].
    simpl in Hl2. rewrite Hl2. split; [done|].
    intros (_ & f' & ? & ? & ?). congruence. }
  destruct currentIsNull.
  - split; [|done]. intros _. split; [done|]. by exists f.
  - destruct (build_total k (S f)) as [l Hl]. rewrite Hl.
    split; [done|]. by intros [? _].
Qed.
End BuildOnLines.

(** ** [makeSectionList] *)

Lemma makeSectionList_returns m m' :
  makeSectionList m = Returns tt m' →
  ∃ l, build (bool_decide (_currentSection m = None)) []
         (classifiedLines (cm m)) = Some l
       ∧ sectionRanges m' = Some l
       ∧ (∃ news, buildingOn (length (store m)) news m' ∧ rangeOf <$> news = l)
       ∧ sameSurroundings m m'.
Proof.
  intros Hrun. pose proof (makeSectionList_build m) as H.
  destruct (build _ _ _) as [l|].
  - destruct H as (m2 & news & Hrun2 & Hb & Hl & Hsame).
    rewrite Hrun in Hrun2. injection Hrun2 as <-.
    exists l. repeat split; try done; try apply Hsame.
    + rewrite <- Hl. by eapply buildingOn_ranges.
    + by exists news.
  - destruct H as (m2 & Hrun2 & _). congruence.
Qed.

(** When the first non-blank line is line 0 or a flagged line, the list is
    built and tiles the document from that line on. *)
Lemma makeSectionList_tiles m f :
  firstNonBlank (cm m) = Some f →
  f = 0 ∨ isSectionAt (cm m) f = true →
  ∃ m' e l, makeSectionList m = Returns tt m'
    ∧ sectionRanges m' = Some ((f, e) :: l)
    ∧ tiles f ((f, e) :: l) (lineCount (cm m)).
Proof.
  intros Hf Hopen. pose proof (makeSectionList_build m) as H.
  destruct (build_classifiedLines_tiles (cm m) f
              (bool_decide (_currentSection m = None)) Hf Hopen)
    as (e & l & Hb & Ht).
  rewrite Hb in H. destruct H as (m' & news & Hrun & Hon & Hl & _).
  exists m', e, l. repeat split; try done; try apply Ht.
  rewrite <- Hl. by eapply buildingOn_ranges.
Qed.

(** Otherwise the first call of the iteratee goes to
    [_updateCurrentSectionEnd]: on a manager that never built a list the
    call throws, and on a manager that did it writes to a section of the
    previous list, the new list getting no section for that line. *)
Lemma makeSectionList_first_line_lost m f :
  firstNonBlank (cm m) = Some f →
  f ≠ 0 → isSectionAt (cm m) f = false →
  match _currentSection m with
  | None =>
      ∃ m', makeSectionList m = Throws TypeError m'
            ∧ _sectionList m' = Some []
  | Some _ =>
      ∃ m' l, makeSectionList m = Returns tt m'
              ∧ sectionRanges m' = Some l
              ∧ ∀ s e, (s, e) ∈ l → f < s
  end.
Proof.
  intros Hf H0 Hs. pose proof (makeSectionList_build m) as H.
  destruct (_currentSection m) as [r|] eqn:Hcur.
  - rewrite bool_decide_eq_false_2 in H by done.
    destruct (build false [] (classifiedLines (cm m))) as [l|] eqn:Hb.
    2:{ apply build_classifiedLines_None in Hb as [? _]. done. }
    destruct H as (m' & news & Hrun & Hon & Hl & _).
    exists m', l. repeat split; [done|..].
    { rewrite <- Hl. by eapply buildingOn_ranges. }
    intros s e Hin. apply build_starts in Hb. simpl in Hb.
    assert (s ∈ l.*1) as Hs1.
    { apply list_elem_of_fmap. by exists (s, e). }
    rewrite Hb in Hs1. apply list_elem_of_fmap in Hs1 as ([b n] & -> & Hn).
    apply list_elem_of_filter in Hn as [Hopen Hn].
    unfold classifiedLines in Hn. rewrite Hf in Hn.
    apply list_elem_of_fmap in Hn as (j & [= -> ->] & Hj).
    apply elem_of_seq in Hj. simpl.
    destruct (decide (j = f)) as [->|]; [|lia].
    unfold opens in Hopen. simpl in Hopen. rewrite Hs in Hopen.
    apply orb_true_iff in Hopen as [Hopen|]; [|done].
    apply Nat.eqb_eq in Hopen. done.
  - rewrite bool_decide_eq_true_2 in H by done.
    destruct (build true [] (classifiedLines (cm m))) as [l|] eqn:Hb.
    + assert (build true [] (classifiedLines (cm m)) = None) as Hn.
      { apply build_classifiedLines_None. split; [done|]. by exists f. }
      congruence.
    + destruct H as (m' & Hrun & Hl & _). by exists m'.
Qed.

(** A section starts at line [i] exactly when [i] is at or after the first
    non-blank line and is line 0 or a flagged line. *)
Lemma makeSectionList_starts m m' :
  makeSectionList m = Returns tt m' →
  ∃ l, sectionRanges m' = Some l
    ∧ ∀ i, (∃ e, (i, e) ∈ l) ↔
           (∃ f, firstNonBlank (cm m) = Some f ∧ f ≤ i < lineCount (cm m))
           ∧ (i = 0 ∨ isSectionAt (cm m) i = true).
Proof.
  intros Hrun. apply makeSectionList_returns in Hrun
    as (l & Hb & Hl & _ & _).
  exists l. split; [done|]. intros i.
  apply build_starts in Hb. simpl in Hb.
  transitivity (i ∈ l.*1).
  { rewrite list_elem_of_fmap. split.
    - intros [e He]. by exists (i, e).
    - intros ([s e] & -> & He). by exists e. }
  rewrite Hb, list_elem_of_fmap. unfold classifiedLines. split.
  - intros ([b n] & -> & Hn). apply list_elem_of_filter in Hn as [Hopen Hn].
    destruct (firstNonBlank (cm m)) as [f|]; [|by apply elem_of_nil in Hn].
    apply list_elem_of_fmap in Hn as (j & [= -> ->] & Hj).
    apply elem_of_seq in Hj. simpl. split.
    + exists f. split; [done|lia].
    + unfold opens in Hopen. simpl in Hopen.
      apply orb_true_iff in Hopen as [Hopen|]; [left|by right].
      by apply Nat.eqb_eq in Hopen.
  - intros [(f & Hf & Hi) Hopen]. rewrite Hf.
    exists (classify (cm m) i). split; [done|].
    apply list_elem_of_filter. split.
    + unfold opens, classify. simpl.
      destruct Hopen as [->| ->]; [done|]. by rewrite orb_true_r.
    + apply list_elem_of_fmap. exists i. split; [done|].
      apply elem_of_seq. lia.
Qed.

(** Leading blank lines are never the start of a section. *)
Lemma makeSectionList_skips_leading_blanks m m' l s e :
  makeSectionList m = Returns tt m' →
  sectionRanges m' = Some l → (s, e) ∈ l →
  (∀ j line', j ≤ s → getLine (cm m) j = Some line' → isBlank line' = true) →
  False.
Proof.
  intros Hrun Hl Hin Hblank.
  destruct (makeSectionList_starts _ _ Hrun) as (l' & Hl' & Hst).
  assert (l' = l) as -> by congruence.
  destruct (proj1 (Hst s)) as [(f & Hf & Hfs) _]; [by exists e|].
  destruct (firstNonBlank_line _ _ Hf) as [(line' & Hline & Hnb) _].
  rewrite (Hblank f line') in Hnb; [done|lia|done].
Qed.

(** ** The setext underline expression *)

Lemma skipSpaces_spec s :
  ∃ n, s = replicate n SPACE ++ skipSpaces s.
Proof.
  induction s as [|c s [n IH]]; [by exists 0|]. simpl.
  destruct (c =? SPACE)%N eqn:Hc; [|by exists 0].
  apply N.eqb_eq in Hc as ->. exists (S n). simpl. by rewrite <- IH.
Qed.

Lemma skipRun_spec c s :
  ∃ k, s = replicate k c ++ skipRun c s.
Proof.
  induction s as [|x s [k IH]]; [by exists 0|]. simpl.
  destruct (x =? c)%N eqn:Hx; [|by exists 0].
  apply N.eqb_eq in Hx as ->. exists (S k). simpl. by rewrite <- IH.
Qed.

Lemma skipRun_Forall (P : N → Prop) c s :
  Forall P s → Forall P (skipRun c s).
Proof.
  induction 1 as [|x s Hx Hs IH]; simpl; [done|].
  destruct (x =? c)%N; [done|by constructor].
Qed.

Lemma skipRun_replicate c k t :
  skipRun c (replicate k c ++ t) = skipRun c t.
Proof. induction k as [|k IH]; simpl; [done|]. by rewrite N.eqb_refl. Qed.

Lemma skipSpaces_replicate n s :
  skipSpaces (replicate n SPACE ++ s) = skipSpaces s.
Proof. induction n as [|n IH]; simpl; [done|]. by rewrite IH. Qed.

(** The matcher accepts exactly the language of the expression. *)
Lemma setextHeaderRx_lang s :
  setextHeaderRx s = true ↔ setextHeaderLang s.
Proof.
  unfold setextHeaderRx, setextHeaderLang. split.
  - destruct (skipSpaces_spec s) as [n Hn].
    destruct (skipSpaces s) as [|c rest]; [done|].
    destruct ((c =? EQUALS) || (c =? HYPHEN))%N eqn:Hc; [|done].
    intros Hws. destruct (skipRun_spec c rest) as [k Hk].
    exists n, k, c, (skipRun c rest). repeat split.
    + rewrite Hn at 1. simpl. by rewrite <- Hk.
    + apply orb_true_iff in Hc as [Hc|Hc]; apply N.eqb_eq in Hc; auto.
    + apply Forall_forall. intros x Hx.
      rewrite forallb_forall in Hws. by apply Hws.
  - intros (n & k & c & t & -> & Hc & Ht).
    rewrite skipSpaces_replicate.
    pose proof (skipRun_replicate c k t) as Hrun.
    destruct Hc as [-> | ->]; simpl; rewrite Hrun;
      apply forallb_forall; intros x Hx.
    all: match type of Hx with In _ (skipRun ?c _) =>
           pose proof (skipRun_Forall _ c _ Ht) as Ht' end.
    all: rewrite Forall_forall in Ht'; by apply Ht'.
Qed.

Lemma setextHeaderRx_truthy s : setextHeaderRx s = true → truthy s = true.
Proof. by destruct s. Qed.

Lemma isSectionAt_cases c i :
  isSectionAt c i = atxAt c i || nextLineIsUnderline c i.
Proof.
  unfold isSectionAt, atxAt, nextLineIsUnderline.
  destruct (_ && _ && _ && _ && _); [done|]. simpl.
  destruct (getLine c (i + 1)) as [line|]; [|done]. simpl.
  destruct (setextHeaderRx line) eqn:Hrx.
  - by rewrite (setextHeaderRx_truthy _ Hrx).
  - by rewrite andb_false_r.
Qed.

Lemma lineStates_flag c f i :
  firstNonBlank c = Some f → f ≤ i < lineCount c →
  (isSectionAt c i, i) ∈ lineStates c.
Proof.
  intros Hf Hi. rewrite lineStates_classified. unfold classifiedLines.
  rewrite Hf. apply list_elem_of_fmap. exists i. split; [done|].
  apply elem_of_seq. lia.
Qed.

(** ** The section list of sample documents *)

(** C1: the first section of the list should start at the first non-blank
    line even when that line is no boundary. On the document [["", "body"]]
    and a manager that never built a list, the first non-blank line is
    line 1 and is not flagged; [makeSectionList] hands it to
    [_updateCurrentSectionEnd] while [_currentSection] is [null], throws a
    [TypeError] and leaves an empty list: no section starts at line 1. *)
Theorem first_section_lost_after_leading_blank :
  firstNonBlank leadingBlankDoc = Some 1
  ∧ lineStates leadingBlankDoc = [(false, 1)]
  ∧ makeSectionList (newSectionManager leadingBlankDoc [] 0)
    = Throws TypeError
        (set_sectionList (Some []) (newSectionManager leadingBlankDoc [] 0))
  ∧ sectionRanges
      (finalState (makeSectionList (newSectionManager leadingBlankDoc [] 0)))
    = Some [].
Proof. by vm_compute. Qed.

Lemma isSectionAt_heading c i line :
  getLine c i = Some line → truthy line = true →
  headingOutsideContext c i → isSectionAt c i = true.
Proof.
  intros Hline Ht (Hh & Hq & Hl & Ht'). rewrite isSectionAt_cases.
  unfold atxAt. by rewrite Hline, Hh, Hq, Hl, Ht'; simpl; rewrite Ht.
Qed.

Lemma isSectionAt_no_heading c i :
  base.header (getStateAfter c i) = false →
  isSectionAt c i = nextLineIsUnderline c i.
Proof.
  intros Hh. rewrite isSectionAt_cases. unfold atxAt. rewrite Hh.
  by rewrite andb_false_r.
Qed.

Lemma example_classifiedLines c :
  docLines c = exampleLines →
  headingOutsideContext c 1 → headingOutsideContext c 4 →
  (∀ i, base.header (getStateAfter c i) = true → i = 1 ∨ i = 4) →
  classifiedLines c
  = [(true, 1); (false, 2); (false, 3); (true, 4); (false, 5)].
Proof.
  intros Hdoc H1 H4 Hother.
  assert (∀ i, i ≠ 1 → i ≠ 4 → base.header (getStateAfter c i) = false)
    as Hplain.
  { intros i ? ?. destruct (base.header (getStateAfter c i)) eqn:Hh; [|done].
    destruct (Hother i Hh); done. }
  unfold classifiedLines, firstNonBlank, lineCount. rewrite Hdoc.
  change (firstNonBlankFrom exampleLines 0) with (Some 1).
  cbn [length exampleLines Nat.sub seq fmap list_fmap]. unfold classify.
  rewrite (isSectionAt_heading c 1 (js "# Title")), 
    (isSectionAt_heading c 4 (js "## Sub"));
    try done; try (unfold getLine; by rewrite Hdoc).
  rewrite !isSectionAt_no_heading by (apply Hplain; lia).
  unfold nextLineIsUnderline, getLine. by rewrite Hdoc.
Qed.

(** C2, as stated, fails: on the example document the list does not hold
    the three sections [{1,1}], [{2,3}], [{4,5}]. *)
Lemma example_document_not_three_sections :
  sectionRanges (finalState (makeSectionList (newSectionManager exampleDoc [] 0)))
  ≠ Some [(1, 1); (2, 3); (4, 5)].
Proof. by vm_compute. Qed.

(** C2, amended: for the 6-line example document, with lines 1 and 4 marked
    as heading lines outside quote, list and task list and no other line
    marked as a heading, [makeSectionList] returns and the list holds
    exactly the two sections [{start:1, end:3}] and [{start:4, end:5}], in
    that order: the body lines extend the section their heading opened. *)
Theorem example_document_sections m :
  docLines (cm m) = exampleLines →
  headingOutsideContext (cm m) 1 → headingOutsideContext (cm m) 4 →
  (∀ i, base.header (getStateAfter (cm m) i) = true → i = 1 ∨ i = 4) →
  ∃ m', makeSectionList m = Returns tt m'
        ∧ sectionRanges m' = Some [(1, 3); (4, 5)].
Proof.
  intros Hdoc H1 H4 Hother. pose proof (makeSectionList_build m) as H.
  rewrite (example_classifiedLines _ Hdoc H1 H4 Hother) in H.
  assert (∀ b, build b [] [(true, 1); (false, 2); (false, 3); (true, 4);
                           (false, 5)] = Some [(1, 3); (4, 5)]) as Hb
    by (by intros []).
  rewrite Hb in H. destruct H as (m' & news & Hrun & Hon & Hl & _).
  exists m'. split; [done|]. rewrite <- Hl. by eapply buildingOn_ranges.
Qed.

Lemma example_document_sections_witness :
  ∃ m', makeSectionList (newSectionManager exampleDoc [] 0) = Returns tt m'
        ∧ sectionRanges m' = Some [(1, 3); (4, 5)].
Proof.
  apply (example_document_sections (newSectionManager exampleDoc [] 0)).
  - reflexivity.
  - repeat split.
  - repeat split.
  - intros i. simpl.
    destruct i as [|[|[|[|[|i]]]]]; simpl; intros H;
      first [discriminate H | by left | by right].
Defined.

(** C3: the list should cover the lines from the first non-blank line to
    the last. A manager builds its list for [introDoc]; the document then
    becomes [editedDoc], whose first non-blank line is line 1, and the list
    is rebuilt. The new list is [{2,3}] only: line 1 went to the section
    object of the previous list, whose range became [{0,1}], and no section
    of the new list covers it. *)
Theorem section_list_misses_first_nonblank_line :
  ∃ m1 m2,
    makeSectionList (newSectionManager introDoc [] 0) = Returns tt m1
    ∧ makeSectionList (set_cm editedDoc m1) = Returns tt m2
    ∧ firstNonBlank editedDoc = Some 1
    ∧ lineCount editedDoc = 4
    ∧ sectionRanges m2 = Some [(2, 3)]
    ∧ rangeOf <$> store m2 !! 0 = Some (0, 1).
Proof. do 2 eexists. by vm_compute. Qed.

(** ** Boundary lines *)

(** C5, as stated, fails: line 2 of [tabDoc] is a run of ['='] after one
    whitespace character, a tab, yet line 1 is not flagged and no section
    starts at it. *)
Lemma tab_indented_underline_not_boundary :
  firstNonBlank tabDoc = Some 0
  ∧ (∃ line, getLine tabDoc 2 = Some line ∧ underlineAsClaimed line)
  ∧ lineStates tabDoc = [(false, 0); (false, 1); (false, 2)]
  ∧ sectionRanges (finalState (makeSectionList (newSectionManager tabDoc [] 0)))
    = Some [(0, 2)].
Proof.
  split; [done|]. split; [|by vm_compute].
  eexists. split; [done|].
  exists [9%N], (js "==="), []. repeat split; try done.
  - by repeat constructor.
  - left. by repeat constructor.
Qed.

(** C5, amended: for every line [i] at or after the first non-blank line,
    if line [i + 1] exists and consists of zero or more U+0020 spaces, then
    one or more ['='] or one or more ['-'], then zero or more whitespace
    characters, the classifier flags line [i] as a boundary, and whenever
    [makeSectionList] returns, its list has a section starting at line
    [i]. *)
Theorem setext_title_is_boundary c i f line :
  firstNonBlank c = Some f → f ≤ i →
  getLine c (i + 1) = Some line → setextHeaderLang line →
  (true, i) ∈ lineStates c
  ∧ ∀ m m', cm m = c → makeSectionList m = Returns tt m' →
      ∃ l e, sectionRanges m' = Some l ∧ (i, e) ∈ l.
Proof.
  intros Hf Hi Hline Hlang.
  assert (i < lineCount c) as Hlt.
  { apply lookup_lt_Some in Hline. unfold lineCount. lia. }
  assert (isSectionAt c i = true) as Hflag.
  { rewrite isSectionAt_cases. unfold nextLineIsUnderline. rewrite Hline.
    simpl. rewrite (proj2 (setextHeaderRx_lang line) Hlang).
    apply orb_true_r. }
  split.
  - rewrite <- Hflag. by apply (lineStates_flag c f).
  - intros m m' <- Hrun.
    destruct (makeSectionList_starts _ _ Hrun) as (l & Hl & Hst).
    destruct (proj2 (Hst i)) as [e He]; [|by exists l, e].
    split; [by exists f|by right].
Qed.

Lemma setext_title_is_boundary_witness :
  firstNonBlank setextDoc = Some 0
  ∧ (true, 1) ∈ lineStates setextDoc
  ∧ ∀ m m', cm m = setextDoc → makeSectionList m = Returns tt m' →
      ∃ l e, sectionRanges m' = Some l ∧ (1, e) ∈ l.
Proof.
  split; [reflexivity|].
  apply (setext_title_is_boundary setextDoc 1 0 (js "  ---  ")).
  - reflexivity.
  - lia.
  - reflexivity.
  - exists 2, 2, HYPHEN, (js "  "). split; [reflexivity|].
    split; [by right|]. by repeat constructor.
Defined.

(** C6, as stated, fails: line 1 of [quoteDoc] is marked as a heading inside
    a blockquote, and a section starts at it all the same, since the next
    line is a setext underline. *)
Lemma quoted_heading_opens_section :
  firstNonBlank quoteDoc = Some 0
  ∧ base.header (getStateAfter quoteDoc 1) = true
  ∧ base.quote (getStateAfter quoteDoc 1) = true
  ∧ lineStates quoteDoc = [(false, 0); (true, 1); (false, 2)]
  ∧ sectionRanges (finalState (makeSectionList (newSectionManager quoteDoc [] 0)))
    = Some [(0, 0); (1, 2)].
Proof. by vm_compute. Qed.

(** C6, amended: let line [i], at or after the first non-blank line, be
    marked as a heading line by the oracle. If it is inside a blockquote, a
    list or a task list, its heading mark does not make it a boundary: it is
    flagged exactly when the next line matches the setext underline
    expression, and whenever [makeSectionList] returns, a section starts at
    it exactly when it is flagged or is line 0. If it is outside all three
    and its text is not empty, it is flagged as a boundary, and whenever
    [makeSectionList] returns, a section starts at it. *)
Theorem heading_line_boundary c i f :
  firstNonBlank c = Some f → f ≤ i < lineCount c →
  base.header (getStateAfter c i) = true →
  (base.quote (getStateAfter c i) = true
   ∨ base.list (getStateAfter c i) = true
   ∨ base.taskList (getStateAfter c i) = true →
   (nextLineIsUnderline c i, i) ∈ lineStates c
   ∧ ∀ m m', cm m = c → makeSectionList m = Returns tt m' →
       ∃ l, sectionRanges m' = Some l
            ∧ ((∃ e, (i, e) ∈ l) ↔ i = 0 ∨ nextLineIsUnderline c i = true))
  ∧ (headingOutsideContext c i → truthy_opt (getLine c i) = true →
     (true, i) ∈ lineStates c
     ∧ ∀ m m', cm m = c → makeSectionList m = Returns tt m' →
         ∃ l e, sectionRanges m' = Some l ∧ (i, e) ∈ l).
Proof.
  intros Hf Hi Hh. split.
  - intros Hctx.
    assert (isSectionAt c i = nextLineIsUnderline c i) as Hflag.
    { rewrite isSectionAt_cases. unfold atxAt.
      destruct Hctx as [-> | [-> | ->]]; simpl;
        by rewrite ?andb_false_r. }
    split.
    + rewrite <- Hflag. by apply (lineStates_flag c f).
    + intros m m' <- Hrun.
      destruct (makeSectionList_starts _ _ Hrun) as (l & Hl & Hst).
      exists l. split; [done|]. rewrite Hst, Hflag. split; [by intros [_ ?]|].
      intros ?. split; [by exists f|done].
  - intros Hout Ht.
    assert (isSectionAt c i = true) as Hflag.
    { destruct (getLine c i) as [line|] eqn:Hline; [|done].
      by apply (isSectionAt_heading c i line). }
    split.
    + rewrite <- Hflag. by apply (lineStates_flag c f).
    + intros m m' <- Hrun.
      destruct (makeSectionList_starts _ _ Hrun) as (l & Hl & Hst).
      destruct (proj2 (Hst i)) as [e He]; [|by exists l, e].
      split; [by exists f|by right].
Qed.

Lemma heading_line_boundary_witness :
  (nextLineIsUnderline quoteDoc 1, 1) ∈ lineStates quoteDoc
  ∧ (true, 4) ∈ lineStates exampleDoc.
Proof.
  assert (0 ≤ 1 < lineCount quoteDoc) as Hq by (unfold lineCount; simpl; lia).
  assert (1 ≤ 4 < lineCount exampleDoc) as He
    by (unfold lineCount; simpl; lia).
  split.
  - destruct (heading_line_boundary quoteDoc 1 0 eq_refl Hq eq_refl)
      as [Hin _].
    apply Hin. left. reflexivity.
  - destruct (heading_line_boundary exampleDoc 4 1 eq_refl He eq_refl)
      as [_ Hout].
    apply Hout; [repeat split|reflexivity].
Defined.

(** ** Line lookup on a built list *)

Lemma firstReaching_before line l j s e :
  j < firstReaching line l → l !! j = Some (s, e) → e < line.
Proof.
  revert j. induction l as [|[s0 e0] l IH]; intros j; simpl; [lia|].
  destruct (line <=? e0) eqn:Hle; [lia|]. apply Nat.leb_gt in Hle.
  destruct j as [|j]; simpl.
  - intros _ [= _ <-]. done.
  - intros ? ?. apply (IH j); [lia|done].
Qed.

Lemma firstReaching_le line l : firstReaching line l ≤ length l.
Proof.
  induction l as [|[s e] l IH]; simpl; [done|].
  destruct (line <=? e); lia.
Qed.

Lemma firstReaching_reaches line l :
  firstReaching line l < length l →
  ∃ s e, l !! firstReaching line l = Some (s, e) ∧ line ≤ e.
Proof.
  induction l as [|[s e] l IH]; simpl; [lia|].
  destruct (line <=? e) eqn:Hle.
  - apply Nat.leb_le in Hle. intros _. by exists s, e.
  - intros ?. apply IH. lia.
Qed.

Lemma tiles_lookup lo l hi j s e :
  tiles lo l hi → l !! j = Some (s, e) → lo ≤ s ∧ s ≤ e ∧ e < hi.
Proof.
  revert lo j. induction l as [|[s0 e0] l IH]; intros lo j; simpl; [done|].
  intros (-> & ? & Ht). destruct j as [|j]; simpl.
  - intros [= <- <-]. apply tiles_le in Ht. lia.
  - intros Hj. destruct (IH _ _ Ht Hj) as (? & ? & ?). lia.
Qed.

Lemma tiles_next lo l hi j s e s' e' :
  tiles lo l hi → l !! j = Some (s, e) → l !! S j = Some (s', e') →
  s' = S e.
Proof.
  revert lo j. induction l as [|[s0 e0] l IH]; intros lo j; simpl; [done|].
  intros (-> & ? & Ht). destruct j as [|j]; simpl.
  - intros [= <- <-]. destruct l as [|[s1 e1] l]; [done|].
    simpl in *. intros [= <- <-]. by destruct Ht.
  - by apply (IH _ _ Ht).
Qed.

Lemma tiles_head lo l hi s e : tiles lo l hi → l !! 0 = Some (s, e) → s = lo.
Proof. destruct l as [|[s0 e0] l]; simpl; [done|]. by intros [-> _] [= <- _]. Qed.

Lemma tiles_last lo l hi s e :
  tiles lo l hi → l !! (length l - 1) = Some (s, e) → hi = S e.
Proof.
  destruct l as [|p l _] using rev_ind; [done|].
  rewrite length_app, Nat.add_sub. destruct p as [s0 e0].
  rewrite tiles_snoc, list_lookup_middle by done.
  by intros (_ & _ & ->) [= _ <-].
Qed.

Lemma firstReaching_start lo l hi line s e :
  tiles lo l hi → lo ≤ line →
  l !! firstReaching line l = Some (s, e) → s ≤ line.
Proof.
  revert lo. induction l as [|[s0 e0] l IH]; intros lo; simpl; [done|].
  intros (-> & ? & Ht) Hlo. destruct (line <=? e0) eqn:Hle; simpl.
  - by intros [= <- _].
  - apply Nat.leb_gt in Hle. apply (IH _ Ht). lia.
Qed.

Lemma firstReaching_inside lo l hi line :
  tiles lo l hi → lo ≤ line < hi → firstReaching line l < length l.
Proof.
  revert lo. induction l as [|[s0 e0] l IH]; intros lo; simpl; [lia|].
  intros (-> & ? & Ht) Hline. destruct (line <=? e0) eqn:Hle; [lia|].
  apply Nat.leb_gt in Hle. specialize (IH _ Ht). lia.
Qed.

Lemma firstReaching_past lo l hi line :
  tiles lo l hi → hi ≤ line → firstReaching line l = length l.
Proof.
  revert lo. induction l as [|[s0 e0] l IH]; intros lo; simpl; [done|].
  intros (-> & ? & Ht) Hline. pose proof (tiles_le _ _ _ Ht).
  destruct (line <=? e0) eqn:Hle; [apply Nat.leb_le in Hle; lia|].
  by rewrite (IH _ Ht).
Qed.

Lemma firstReaching_unique lo l hi line j s e :
  tiles lo l hi → l !! j = Some (s, e) → s ≤ line ≤ e →
  j = firstReaching line l.
Proof.
  revert lo j. induction l as [|[s0 e0] l IH]; intros lo j; simpl; [done|].
  intros (-> & ? & Ht). destruct j as [|j]; simpl.
  - intros [= <- <-] [_ Hle]. apply Nat.leb_le in Hle. by rewrite Hle.
  - intros Hj Hline. destruct (tiles_lookup _ _ _ _ _ _ Ht Hj) as (? & _).
    destruct (line <=? e0) eqn:Hle; [apply Nat.leb_le in Hle; lia|].
    f_equal. by apply (IH _ _ Ht Hj).
Qed.

Lemma tiles_ordered lo l hi i j s e s' e' :
  tiles lo l hi → i < j →
  l !! i = Some (s, e) → l !! j = Some (s', e') → e < s'.
Proof.
  revert lo i j. induction l as [|[s0 e0] l IH]; intros lo i j; simpl; [done|].
  intros (-> & ? & Ht) Hij. destruct j as [|j]; [lia|].
  destruct i as [|i]; simpl.
  - intros [= <- <-] Hj. destruct (tiles_lookup _ _ _ _ _ _ Ht Hj). lia.
  - apply (IH _ _ _ Ht). lia.
Qed.

(** [tiles] in words: every range has [start <= end], each range starts
    right after the one before it ends, the ranges come by increasing
    start, and a line belongs to some range exactly when it lies between
    [lo] and [hi - 1]. *)
Lemma tiles_spec lo l hi :
  tiles lo l hi →
  (∀ j s e, l !! j = Some (s, e) → s ≤ e)
  ∧ (∀ j s e s' e',
       l !! j = Some (s, e) → l !! S j = Some (s', e') → S e = s')
  ∧ (∀ i j s e s' e',
       i < j → l !! i = Some (s, e) → l !! j = Some (s', e') → s < s')
  ∧ (∀ n, lo ≤ n < hi ↔ ∃ j s e, l !! j = Some (s, e) ∧ s ≤ n ≤ e).
Proof.
  intros Ht. split; [|split; [|split]].
  - intros j s e Hj. by destruct (tiles_lookup _ _ _ _ _ _ Ht Hj) as (_ & ? & _).
  - intros j s e s' e' Hj Hj'. symmetry. by eapply tiles_next.
  - intros i j s e s' e' Hij Hi Hj.
    pose proof (tiles_ordered _ _ _ _ _ _ _ _ _ Ht Hij Hi Hj).
    destruct (tiles_lookup _ _ _ _ _ _ Ht Hi) as (_ & ? & _). lia.
  - intros n. split.
    + intros Hn. pose proof (firstReaching_inside _ _ _ _ Ht Hn) as Hlt.
      destruct (firstReaching_reaches n l Hlt) as (s & e & Hfe & Hle).
      exists (firstReaching n l), s, e. split; [done|]. split; [|done].
      apply (firstReaching_start lo l hi n s e Ht); [lia|done].
    + intros (j & s & e & Hj & Hn).
      destruct (tiles_lookup _ _ _ _ _ _ Ht Hj) as (? & ? & ?). lia.
Qed.

(** X17: on a document whose first non-blank line is line 0 or a flagged
    line, the list is built, its first section starts at that line, and its
    sections, in order, have [start <= end], follow one another without gap
    or overlap, and cover exactly the lines from the first non-blank one to
    the last. *)
Lemma makeSectionList_partition m f :
  firstNonBlank (cm m) = Some f →
  f = 0 ∨ isSectionAt (cm m) f = true →
  ∃ m' l, makeSectionList m = Returns tt m'
    ∧ sectionRanges m' = Some l
    ∧ (∃ e, l !! 0 = Some (f, e))
    ∧ (∀ j s e, l !! j = Some (s, e) → s ≤ e)
    ∧ (∀ j s e s' e',
         l !! j = Some (s, e) → l !! S j = Some (s', e') → S e = s')
    ∧ (∀ i j s e s' e',
         i < j → l !! i = Some (s, e) → l !! j = Some (s', e') → s < s')
    ∧ (∀ n, f ≤ n < lineCount (cm m) ↔
            ∃ j s e, l !! j = Some (s, e) ∧ s ≤ n ≤ e).
Proof.
  intros Hf Hopen.
  destruct (makeSectionList_tiles m f Hf Hopen) as (m' & e & l & Hrun & Hl & Ht).
  exists m', ((f, e) :: l). split; [done|]. split; [done|].
  split; [by exists e|]. by apply tiles_spec.
Qed.

Lemma makeSectionList_partition_witness :
  ∃ m' l, makeSectionList (newSectionManager exampleDoc [] 0) = Returns tt m'
          ∧ sectionRanges m' = Some l
          ∧ ∃ e, l !! 0 = Some (1, e).
Proof.
  destruct (makeSectionList_partition (newSectionManager exampleDoc [] 0) 1
              eq_refl (or_intror eq_refl))
    as (m' & l & Hrun & Hl & He & _).
  exists m', l. split; [exact Hrun|]. split; [exact Hl|exact He].
Defined.

Lemma buildingOn_lookup base news m j :
  buildingOn base news m →
  (r ← seq base (length news) !! j; store m !! r) = news !! j.
Proof.
  intros [(pre & Hst & <-) _]. destruct (decide (j < length news)) as [Hj|Hj].
  - rewrite lookup_seq_lt by done. simpl. rewrite Hst.
    by rewrite lookup_app_r, Nat.add_comm, Nat.add_sub by lia.
  - rewrite lookup_seq_ge, lookup_ge_None_2 by lia. done.
Qed.

Lemma nthSection_building base news m j :
  buildingOn base news m →
  nthSection m j = (λ x, (base + j, start x, end_ x)) <$> news !! j.
Proof.
  intros Hon. pose proof (buildingOn_lookup _ _ _ j Hon) as Hj.
  destruct Hon as [_ [Hl _]]. unfold nthSection. rewrite Hl. simpl.
  destruct (decide (j < length news)) as [Hlt|Hge].
  - rewrite lookup_seq_lt in Hj |- * by done. simpl in *. rewrite Hj.
    by destruct (news !! j).
  - rewrite lookup_seq_ge, lookup_ge_None_2 by lia. done.
Qed.

Lemma sectionByLineLoop_building base news m line remaining sectionIndex :
  buildingOn base news m →
  sectionIndex + remaining = length news →
  sectionByLineLoop (store m) (seq base (length news)) line remaining
    sectionIndex
  = Some (sectionIndex
          + firstReaching line (drop sectionIndex (rangeOf <$> news))).
Proof.
  intros Hon. revert sectionIndex.
  induction remaining as [|remaining IH]; intros idx Hlen.
  - rewrite drop_ge by (rewrite length_fmap; lia). simpl. by rewrite Nat.add_0_r.
  - simpl. unfold endAt.
    destruct (lookup_lt_is_Some_2 news idx) as [x Hx]; [lia|].
    pose proof (buildingOn_lookup _ _ _ idx Hon) as Hlook.
    rewrite lookup_seq_lt in Hlook |- * by lia. simpl in *.
    rewrite Hlook, Hx. simpl.
    rewrite (drop_S _ (rangeOf x)) by (by rewrite list_lookup_fmap, Hx).
    simpl. destruct (line <=? end_ x); [by rewrite Nat.add_0_r|].
    rewrite Nat.add_1_r, IH by lia. f_equal. lia.
Qed.

(** C4: on a non-empty list built by [makeSectionList], [sectionByLine]
    returns, without throwing and without changing anything, a section [i]
    of the list such that no earlier section reaches [line]; it is the first
    section whose end is at or after [line], or, when its end is before
    [line], the last one of the list. When [line] lies between the start of
    the first section and the last line of the document it is the one
    section with [start <= line <= end]; when [line >= lineCount] its end
    is before [line], so it is the last section. *)
Theorem sectionByLine_spec m0 m line :
  makeSectionList m0 = Returns tt m → _sectionList m ≠ Some [] →
  ∃ i r s e,
    sectionByLine line m = Returns (Some r) m
    ∧ nthSection m i = Some (r, s, e)
    ∧ (∀ j r' s' e', j < i → nthSection m j = Some (r', s', e') → e' < line)
    ∧ (e < line → nthSection m (S i) = None)
    ∧ (∀ r0 s0 e0, nthSection m 0 = Some (r0, s0, e0) →
         s0 ≤ line < lineCount (cm m) →
         s ≤ line ≤ e
         ∧ ∀ j r' s' e', nthSection m j = Some (r', s', e') →
             s' ≤ line ≤ e' → j = i ∧ r' = r)
    ∧ (lineCount (cm m) ≤ line → e < line).
Proof.
  intros Hrun Hne.
  destruct (makeSectionList_returns _ _ Hrun)
    as (l & Hb & _ & (news & Hon & Hnews) & (Hcm & _)).
  set (base := length (store m0)) in *.
  assert (news ≠ []) as Hnews_ne.
  { intros ->. destruct Hon as [_ [Hl _]]. simpl in Hl. done. }
  assert (0 < length news) as Hlen by (destruct news; simpl; [done|lia]).
  assert (∀ j, l !! j = rangeOf <$> news !! j) as Hlook.
  { intros j. by rewrite <- Hnews, list_lookup_fmap. }
  assert (length l = length news) as Hll by (by rewrite <- Hnews, length_fmap).
  destruct (build_classifiedLines_shape _ _ _ Hb)
    as [->|(lo & f & _ & _ & Ht)]; [simpl in Hll; lia|].
  rewrite <- Hcm in Ht.
  set (fr := firstReaching line l).
  pose proof (firstReaching_le line l) as Hfr. fold fr in Hfr.
  set (i := if fr =? length news then length news - 1 else fr).
  assert (i < length news ∧ i ≤ fr
          ∧ (fr < length news → i = fr)
          ∧ (fr = length news → i = length news - 1)) as (Hi & Hifr & Hin & Hout).
  { subst i. destruct (fr =? length news) eqn:E.
    - apply Nat.eqb_eq in E. lia.
    - apply Nat.eqb_neq in E. lia. }
  destruct (lookup_lt_is_Some_2 news i Hi) as [x Hx].
  exists i, (base + i), (start x), (end_ x).
  assert (sectionByLine line m = Returns (Some (base + i)) m) as Hcall.
  { unfold sectionByLine. destruct Hon as [Hst [Hl Hc]]. rewrite Hl.
    rewrite length_seq.
    rewrite (sectionByLineLoop_building base news m line (length news) 0)
      by done.
    rewrite drop_0, Hnews. simpl. fold fr. f_equal. unfold elementAt.
    fold i. destruct (fr =? length news).
    - rewrite (proj2 (Z.ltb_ge _ _)) by lia.
      replace (Z.to_nat (Z.of_nat (length news) - 1)) with (length news - 1)
        by lia.
      subst i. by rewrite lookup_seq_lt by lia.
    - rewrite (proj2 (Z.ltb_ge _ _)) by lia. rewrite Nat2Z.id.
      by rewrite lookup_seq_lt by lia. }
  assert (l !! i = Some (start x, end_ x)) as Hli by (by rewrite Hlook, Hx).
  split; [done|]. split.
  { by rewrite (nthSection_building base news), Hx. }
  split.
  { intros j r' s' e' Hj. rewrite (nthSection_building base news) by done.
    destruct (news !! j) as [y|] eqn:Hy; [|done]. intros [= _ <- <-].
    apply (firstReaching_before line l j (start y)); [fold fr; lia|].
    by rewrite Hlook, Hy. }
  split.
  { intros He. rewrite (nthSection_building base news) by done.
    destruct (decide (fr < length news)) as [Hlt|Hge].
    - rewrite <- Hll in Hlt.
      destruct (firstReaching_reaches line l Hlt) as (s' & e' & Hfe & Hle).
      fold fr in Hfe. rewrite <- (Hin ltac:(lia)), Hli in Hfe.
      injection Hfe as <- <-. lia.
    - rewrite lookup_ge_None_2 by lia. done. }
  split.
  { intros r0 s0 e0. rewrite (nthSection_building base news) by done.
    destruct (news !! 0) as [y|] eqn:Hy; [|done]. intros [= _ <- <-] Hline.
    assert (start y = lo) as Hlo.
    { apply (tiles_head lo l _ (start y) (end_ y) Ht).
      by rewrite Hlook, Hy. }
    rewrite Hlo in Hline.
    pose proof (firstReaching_inside _ _ _ _ Ht Hline) as Hlt. fold fr in Hlt.
    assert (i = fr) as Hi_fr by (apply Hin; lia).
    destruct (firstReaching_reaches line l Hlt) as (s' & e' & Hfe & Hle).
    fold fr in Hfe. rewrite <- Hi_fr, Hli in Hfe. injection Hfe as <- <-.
    split.
    - split; [|done].
      apply (firstReaching_start _ l _ line _ (end_ x) Ht); [lia|].
      fold fr. by rewrite <- Hi_fr.
    - intros j r' s' e'. rewrite (nthSection_building base news) by done.
      destruct (news !! j) as [z|] eqn:Hz; [|done]. intros [= <- <- <-] Hin'.
      assert (j = fr) as ->.
      { apply (firstReaching_unique _ l _ line j (start z) (end_ z) Ht);
          [|done]. by rewrite Hlook, Hz. }
      by rewrite Hi_fr. }
  intros Hpast. pose proof (firstReaching_past _ _ _ _ Ht Hpast) as Hfl.
  fold fr in Hfl. rewrite Hll in Hfl. rewrite (Hout Hfl) in Hli.
  rewrite <- Hll in Hli.
  pose proof (tiles_last _ _ _ _ _ Ht Hli). lia.
Qed.

Lemma sectionByLine_spec_witness :
  makeSectionList (newSectionManager exampleDoc [] 0)
  = Returns tt exampleManager
  ∧ _sectionList exampleManager ≠ Some []
  ∧ ∃ r, sectionByLine 4 exampleManager = Returns (Some r) exampleManager.
Proof.
  assert (makeSectionList (newSectionManager exampleDoc [] 0)
          = Returns tt exampleManager) as Hrun by (vm_compute; reflexivity).
  assert (_sectionList exampleManager ≠ Some []) as Hne
    by (vm_compute; discriminate).
  split; [exact Hrun|]. split; [exact Hne|].
  destruct (sectionByLine_spec _ exampleManager 4 Hrun Hne)
    as (i & r & s & e & Hcall & _).
  exists r. exact Hcall.
Defined.

(** ** Preview grouping *)

Lemma fold_previewStep els : ∀ closed current,
  (fold_left previewStep els (closed ++ [current], length closed)).1
  = groupBy headingTagRx closed current els.
Proof.
  induction els as [|el els IH]; intros closed current; [done|].
  cbn [fold_left groupBy]. unfold previewStep at 2.
  rewrite list_lookup_middle by done. unfold default, from_option, id.
  destruct (headingTagRx (tagName el) && negb (length current =? 0)).
  - rewrite <- IH. f_equal. f_equal.
    replace (length closed + 1) with (length (closed ++ [current]) + 0)
      by (rewrite length_app; simpl; lia).
    by rewrite alter_app_r, Nat.add_0_r.
  - rewrite <- IH. f_equal. f_equal. f_equal.
    rewrite <- (Nat.add_0_r (length closed)). by rewrite alter_app_r.
Qed.

Lemma groupElements_groupBy els :
  groupElements els = groupBy headingTagRx [] [] els.
Proof. apply (fold_previewStep els [] []). Qed.

Lemma groupBy_nonempty isHeading els : ∀ closed current,
  groupBy isHeading closed current els ≠ [].
Proof.
  induction els as [|el els IH]; intros closed current; simpl.
  - by destruct closed.
  - destruct (_ && _); apply IH.
Qed.

Lemma startsWith_spec p s : startsWith p s = true ↔ ∃ suf, s = p ++ suf.
Proof.
  revert s. induction p as [|x p IH]; intros s; simpl.
  - split; [intros _; by exists s|done].
  - destruct s as [|c s]; [split; [done|by intros [? ?]]|].
    rewrite andb_true_iff, N.eqb_eq, IH. split.
    + intros [-> [suf ->]]. by exists suf.
    + intros [suf [= -> ->]]. split; [done|by exists suf].
Qed.

Lemma searchAlternatives_spec alts s :
  searchAlternatives alts s = true ↔
  ∃ pre a suf, a ∈ alts ∧ s = pre ++ a ++ suf.
Proof.
  induction s as [|c s IH].
  - simpl. rewrite orb_false_r, existsb_exists. split.
    + intros (a & Ha & Hs). apply startsWith_spec in Hs as [suf Hs].
      exists [], a, suf. split; [by apply list_elem_of_In|done].
    + intros (pre & a & suf & Ha & Hs). exists a.
      split; [by apply list_elem_of_In|]. apply startsWith_spec.
      destruct pre; [by exists suf|done].
  - simpl. rewrite orb_true_iff, IH, existsb_exists. split.
    + intros [(a & Ha & Hs)|(pre & a & suf & Ha & ->)].
      * apply startsWith_spec in Hs as [suf Hs].
        exists [], a, suf. split; [by apply list_elem_of_In|done].
      * by exists (c :: pre), a, suf.
    + intros (pre & a & suf & Ha & Hs). destruct pre as [|c' pre].
      * left. exists a. split; [by apply list_elem_of_In|].
        apply startsWith_spec. by exists suf.
      * right. simpl in Hs. injection Hs as -> ->. by exists pre, a, suf.
Qed.

(** C7, as stated, fails: a custom element [<h1-badge>] is not one of the
    six heading elements, yet after a paragraph it opens a group of its own
    instead of joining the paragraph's group. *)
Lemma heading_like_tag_opens_group :
  isHeadingTag (tagName (element 1 "H1-BADGE")) = false
  ∧ groupBy isHeadingTag [] [] [element 0 "P"; element 1 "H1-BADGE"]
    = [[element 0 "P"; element 1 "H1-BADGE"]]
  ∧ groupElements [element 0 "P"; element 1 "H1-BADGE"]
    = [[element 0 "P"]; [element 1 "H1-BADGE"]].
Proof. by vm_compute. Qed.

(** C7, amended: the grouping starts with a single empty group, so that no
    element gives one empty group; an element whose tag name contains one
    of [H1], ..., [H6], as the name of each of the six heading elements
    does, closes the current group and opens a new one exactly when the
    current group is non-empty, and is appended in place otherwise; every
    element whose tag name contains none of them is appended to the current
    group; and elements tagged [H1, P, P, H2, P] yield the groups
    [[H1, P, P], [H2, P]]. *)
Theorem groupElements_spec :
  (∀ els, groupElements els = groupBy headingTagRx [] [] els)
  ∧ groupElements [] = [[]]
  ∧ (∀ t, headingTagRx t = true ↔
          ∃ pre h suf, h ∈ headingTags ∧ t = pre ++ h ++ suf)
  ∧ (∀ h, h ∈ headingTags → headingTagRx h = true)
  ∧ (∀ h1 p1 p2 h2 p3,
       tagName h1 = js "H1" → tagName p1 = js "P" → tagName p2 = js "P" →
       tagName h2 = js "H2" → tagName p3 = js "P" →
       groupElements [h1; p1; p2; h2; p3] = [[h1; p1; p2]; [h2; p3]]).
Proof.
  split; [apply groupElements_groupBy|]. split; [done|].
  split; [intros t; apply searchAlternatives_spec|]. split.
  - intros h Hh. apply searchAlternatives_spec. exists [], h, [].
    split; [done|]. by rewrite app_nil_r.
  - intros h1 p1 p2 h2 p3 H1 H2 H3 H4 H5. rewrite groupElements_groupBy.
    simpl. by rewrite H1, H2, H3, H4, H5.
Qed.

Lemma groupElements_spec_witness :
  groupElements [element 0 "H1"; element 1 "P"; element 2 "P";
                 element 3 "H2"; element 4 "P"]
  = [[element 0 "H1"; element 1 "P"; element 2 "P"];
     [element 3 "H2"; element 4 "P"]]
  ∧ headingTagRx (js "H3") = true.
Proof.
  destruct groupElements_spec as (_ & _ & _ & Htag & Hex). split.
  - apply Hex; reflexivity.
  - apply Htag. unfold headingTags. do 2 right. left.
Defined.

(** ** Preview matching *)

(** C8: when the section list was never built, [_sectionList] being [null],
    [sectionMatch] returns at once: the manager, its section objects and
    the preview are what they were. *)
Theorem sectionMatch_without_list m :
  _sectionList m = None → sectionMatch m = Returns tt m.
Proof. intros H. unfold sectionMatch, bind, gets. by rewrite H. Qed.

Lemma sectionMatch_without_list_witness :
  _sectionList (newSectionManager exampleDoc [element 0 "H1"] 1) = None
  ∧ sectionMatch (newSectionManager exampleDoc [element 0 "H1"] 1)
    = Returns tt (newSectionManager exampleDoc [element 0 "H1"] 1).
Proof.
  split; [reflexivity|].
  apply (sectionMatch_without_list
           (newSectionManager exampleDoc [element 0 "H1"] 1)).
  reflexivity.
Defined.

(** What [wrapAll] gives and what it leaves alone. *)
Lemma wrapAll_spec index childs m :
  ∃ m1, wrapAll index childs m
        = Returns (match childs with [] => [] | _ :: _ => [nextNodeId m] end)
            m1
    ∧ store m1 = store m ∧ _sectionList m1 = _sectionList m
    ∧ _currentSection m1 = _currentSection m ∧ cm m1 = cm m
    ∧ nextNodeId m ≤ nextNodeId m1.
Proof.
  unfold wrapAll. destruct childs as [|first childs].
  - exists m. by repeat split.
  - eexists. split; [done|]. simpl. repeat split; lia.
Qed.

Lemma alter_previewSectionEl_ranges q r (h : list SectionData) :
  rangeOf <$> alter (set_previewSectionEl q) r h = rangeOf <$> h.
Proof.
  rewrite (list_fmap_alter rangeOf _ id) by (by apply Forall_forall).
  by apply list_alter_id.
Qed.

(** One call of the callback, on a manager whose list is not [null]. *)
Lemma matchCallback_spec index childs m l :
  _sectionList m = Some l →
  ∃ m', matchCallback (index, childs) m = Returns tt m'
    ∧ _sectionList m' = Some l
    ∧ _currentSection m' = _currentSection m ∧ cm m' = cm m
    ∧ nextNodeId m ≤ nextNodeId m'
    ∧ store m' =
        match l !! index with
        | None => store m
        | Some r =>
            alter (set_previewSectionEl
                     (Some (match childs with
                            | [] => []
                            | _ :: _ => [nextNodeId m]
                            end))) r (store m)
        end.
Proof.
  intros Hl. unfold matchCallback, bind, gets. rewrite Hl.
  destruct (l !! index) as [r|].
  - destruct (wrapAll_spec index childs m)
      as (m1 & -> & Hst & Hl1 & Hc1 & Hcm1 & Hn1).
    eexists. split; [done|]. simpl. rewrite Hst. repeat split; congruence.
  - exists m. by repeat split.
Qed.

(** The whole [forEach]: it returns; it changes neither the list, nor the
    current section, nor the range of any section object; an object is
    untouched unless the list refers to it at the index of some preview
    group; and a link assigned to an object stays assigned, to nodes made
    since. *)
Lemma matchLoop_spec items : ∀ m l,
  _sectionList m = Some l →
  ∃ m', forEach matchCallback items m = Returns tt m'
    ∧ _sectionList m' = Some l
    ∧ _currentSection m' = _currentSection m ∧ cm m' = cm m
    ∧ nextNodeId m ≤ nextNodeId m'
    ∧ rangeOf <$> store m' = rangeOf <$> store m
    ∧ (∀ r, (∀ index childs, (index, childs) ∈ items → l !! index ≠ Some r) →
            store m' !! r = store m !! r)
    ∧ (∀ r q base,
         previewSectionEl <$> store m !! r = Some (Some q) →
         (∀ id, id ∈ q → base ≤ id) → base ≤ nextNodeId m →
         ∃ q', previewSectionEl <$> store m' !! r = Some (Some q')
               ∧ ∀ id, id ∈ q' → base ≤ id).
Proof.
  induction items as [|[index childs] items IH]; intros m l Hl.
  { exists m. repeat split; try done. intros r q base ? ? _. by exists q. }
  cbn [forEach]. unfold bind.
  destruct (matchCallback_spec index childs m l Hl)
    as (m1 & -> & Hl1 & Hc1 & Hcm1 & Hn1 & Hst1).
  destruct (IH m1 l Hl1) as (m' & -> & Hl' & Hc' & Hcm' & Hn' & Hr' & Hu' & Hq').
  exists m'. split; [done|]. split; [done|].
  split; [congruence|]. split; [congruence|]. split; [lia|]. split.
  { rewrite Hr', Hst1. destruct (l !! index); [|done].
    apply alter_previewSectionEl_ranges. }
  split.
  { intros r Hr. rewrite Hu'.
    - rewrite Hst1. destruct (l !! index) as [r'|] eqn:Hri; [|done].
      apply list_lookup_alter_ne. intros ->.
      apply (Hr index childs); [left|done].
    - intros i c Hin. apply (Hr i c). by right. }
  intros r q base Hq Hfresh Hbase.
  assert (∃ q1, previewSectionEl <$> store m1 !! r = Some (Some q1)
                ∧ ∀ id, id ∈ q1 → base ≤ id) as (q1 & Hq1 & Hfresh1).
  { rewrite Hst1. destruct (l !! index) as [r'|]; [|by exists q].
    destruct (decide (r' = r)) as [->|Hne].
    - rewrite list_lookup_alter_eq.
      destruct (store m !! r) as [x|]; [|done]. simpl.
      eexists. split; [done|]. intros id Hid.
      destruct childs; [by apply elem_of_nil in Hid|].
      apply list_elem_of_singleton in Hid as ->. done.
    - rewrite list_lookup_alter_ne by done. by exists q. }
  apply (Hq' r q1 base Hq1 Hfresh1). lia.
Qed.

Lemma sectionMatch_unfold m l :
  _sectionList m = Some l →
  sectionMatch m
  = forEach matchCallback
      (imap pair
         (groupElements
            (filter (λ n, nodeType n = ELEMENT_NODE) (previewContent m)))) m.
Proof.
  intros Hl. unfold sectionMatch, bind, gets. rewrite Hl.
  unfold _getPreviewSections, gets. done.
Qed.

(** C9: [sectionMatch] always returns, and the [start] and [end] of every
    section object are afterwards what they were before; so are the list
    and the current section. The one field of a section object it writes is
    [$previewSectionEl]. *)
Theorem sectionMatch_keeps_ranges m :
  ∃ m', sectionMatch m = Returns tt m'
    ∧ _sectionList m' = _sectionList m
    ∧ _currentSection m' = _currentSection m
    ∧ length (store m') = length (store m)
    ∧ (∀ r, start <$> store m' !! r = start <$> store m !! r)
    ∧ (∀ r, end_ <$> store m' !! r = end_ <$> store m !! r)
    ∧ sectionRanges m' = sectionRanges m.
Proof.
  destruct (_sectionList m) as [l|] eqn:Hl.
  2:{ exists m. unfold sectionMatch, bind, gets. rewrite Hl.
      by repeat split. }
  rewrite (sectionMatch_unfold m l Hl).
  destruct (matchLoop_spec
              (imap pair
                 (groupElements
                    (filter (λ n, nodeType n = ELEMENT_NODE)
                       (previewContent m)))) m l Hl)
    as (m' & -> & Hl' & Hc' & _ & _ & Hr' & _).
  assert (∀ r, rangeOf <$> store m' !! r = rangeOf <$> store m !! r) as Hr.
  { intros r. by rewrite <- !list_lookup_fmap, Hr'. }
  exists m'. split; [done|]. split; [congruence|]. split; [done|].
  split; [|split; [|split]].
  - by rewrite <- (length_fmap rangeOf), Hr', length_fmap.
  - intros r. specialize (Hr r).
    destruct (store m' !! r), (store m !! r); unfold rangeOf in *;
      simpl in *; congruence.
  - intros r. specialize (Hr r).
    destruct (store m' !! r), (store m !! r); unfold rangeOf in *;
      simpl in *; congruence.
  - unfold sectionRanges, ranges. rewrite Hl', Hl. simpl. f_equal.
    apply list_omap_ext, Forall_Forall2_diag, Forall_forall. intros r _.
    apply Hr.
Qed.

Lemma imap_pair_S {A} (l : list A) index x :
  (index, x) ∈ imap (pair ∘ S) l → ∃ i, index = S i.
Proof.
  intros Hin. apply list_elem_of_lookup in Hin as [i Hi].
  rewrite list_lookup_imap in Hi.
  destruct (l !! i); simpl in Hi; [|done]. exists i. congruence.
Qed.

(** C10: when [sectionMatch] runs on a non-empty list, the grouping gives
    at least one group, exactly one empty group when the preview has no
    element, and the first section of the list ends up with a link that is
    not [null]: a jQuery object made by this call, holding nodes created by
    it and none when the group is empty. When no other position of the list
    refers to the same object, the link is the one made for the first
    group. *)
Theorem sectionMatch_links_first_section m r rest :
  _sectionList m = Some (r :: rest) → is_Some (store m !! r) →
  ∃ m' group groups q,
    _getPreviewSections m = Returns (group :: groups) m
    ∧ sectionMatch m = Returns tt m'
    ∧ previewSectionEl <$> store m' !! r = Some (Some q)
    ∧ (∀ id, id ∈ q → nextNodeId m ≤ id)
    ∧ (filter (λ n, nodeType n = ELEMENT_NODE) (previewContent m) = [] →
       group = [] ∧ groups = [] ∧ q = [])
    ∧ (r ∉ rest →
       q = match group with [] => [] | _ :: _ => [nextNodeId m] end).
Proof.
  intros Hl [x Hx]. rewrite (sectionMatch_unfold m _ Hl).
  unfold _getPreviewSections, gets.
  set (els := filter _ (previewContent m)).
  destruct (groupElements els) as [|group groups] eqn:Hg.
  { rewrite groupElements_groupBy in Hg. by apply groupBy_nonempty in Hg. }
  cbn [imap forEach]. unfold bind.
  destruct (matchCallback_spec 0 group m _ Hl)
    as (m1 & -> & Hl1 & _ & _ & Hn1 & Hst1).
  cbn [lookup list_lookup] in Hst1.
  set (q0 := match group with [] => [] | _ :: _ => [nextNodeId m] end) in *.
  assert (previewSectionEl <$> store m1 !! r = Some (Some q0)) as Hq0.
  { by rewrite Hst1, list_lookup_alter_eq, Hx. }
  assert (∀ id, id ∈ q0 → nextNodeId m ≤ id) as Hfresh0.
  { intros id Hid. subst q0. destruct group; [by apply elem_of_nil in Hid|].
    by apply list_elem_of_singleton in Hid as ->. }
  destruct (matchLoop_spec (imap (pair ∘ S) groups) m1 _ Hl1)
    as (m' & -> & _ & _ & _ & _ & _ & Hu' & Hq').
  destruct (Hq' r q0 (nextNodeId m) Hq0 Hfresh0 Hn1) as (q & Hq & Hfresh).
  exists m', group, groups, q.
  split; [done|]. split; [done|]. split; [done|]. split; [done|]. split.
  - intros Hels. rewrite Hels in Hg. injection Hg as <- <-. simpl in Hu'.
    rewrite Hu' in Hq by (intros ? ? Hin; by apply elem_of_nil in Hin).
    rewrite Hq0 in Hq. by injection Hq as <-.
  - intros Hrest. rewrite Hu' in Hq.
    + rewrite Hq0 in Hq. by injection Hq as <-.
    + intros index childs Hin Hr. apply imap_pair_S in Hin as [i ->].
      simpl in Hr. apply Hrest. by apply list_elem_of_lookup_2 in Hr.
Qed.

Lemma sectionMatch_links_first_section_witness :
  ∃ m', sectionMatch emptyPreviewManager = Returns tt m'
        ∧ previewSectionEl <$> store m' !! 0 = Some (Some []).
Proof.
  assert (_sectionList emptyPreviewManager = Some [0; 1]) as Hl
    by (vm_compute; reflexivity).
  assert (is_Some (store emptyPreviewManager !! 0)) as Hx
    by (eexists; vm_compute; reflexivity).
  destruct (sectionMatch_links_first_section emptyPreviewManager 0 [1] Hl Hx)
    as (m' & group & groups & q & _ & Hrun & Hq & _ & Hempty & _).
  exists m'. split; [exact Hrun|].
  destruct (Hempty eq_refl) as (_ & _ & ->). exact Hq.
Defined.

(** * Further properties *)

(** ** The classifier *)

(** X1: the classifier calls its iteratee once for every line from the
    first non-blank line to the last line of the document, in ascending
    order, each with the flag computed for it, and never for a leading
    blank line; on a document without a non-blank line it calls nothing. *)
Theorem lineStates_lines c :
  (lineStates c).*2
  = match firstNonBlank c with
    | None => []
    | Some f => seq f (lineCount c - f)
    end
  ∧ ∀ b i, (b, i) ∈ lineStates c → b = isSectionAt c i.
Proof.
  rewrite lineStates_classified. unfold classifiedLines. split.
  - destruct (firstNonBlank c) as [f|]; [|done].
    rewrite <- list_fmap_compose. apply list_fmap_id.
  - intros b i Hin. destruct (firstNonBlank c) as [f|];
      [|by apply elem_of_nil in Hin].
    apply list_elem_of_fmap in Hin as (j & [= -> ->] & _). done.
Qed.

(** X2: the flag of a line, in full: line [i] is flagged exactly when its
    text is not empty and its state has [header] without [quote], [list]
    or [taskList], or when line [i + 1] exists and is made of spaces, then
    a run of ['='] or of ['-'], then whitespace. In particular the last
    line of the document is flagged by its own state only. *)
Theorem boundary_flag_iff c i :
  (isSectionAt c i = true ↔
   (∃ line, getLine c i = Some line ∧ line ≠ []
            ∧ headingOutsideContext c i)
   ∨ (∃ next, getLine c (i + 1) = Some next ∧ setextHeaderLang next))
  ∧ (i + 1 = lineCount c → isSectionAt c i = atxAt c i).
Proof.
  rewrite isSectionAt_cases. split.
  - rewrite orb_true_iff. unfold atxAt, nextLineIsUnderline.
    unfold headingOutsideContext.
    rewrite !andb_true_iff, !negb_true_iff. split.
    + intros [((((Ht & ?) & ?) & ?) & ?)|Hn].
      * left. destruct (getLine c i) as [line|]; [|done].
        exists line. repeat split; try done. by intros ->.
      * right. destruct (getLine c (i + 1)) as [next|]; [|done].
        exists next. split; [done|]. by apply setextHeaderRx_lang.
    + intros [(line & -> & Hne & ? & ? & ? & ?)|(next & -> & Hl)].
      * left. repeat split; try done. by destruct line.
      * right. by apply setextHeaderRx_lang.
  - intros Hlast. unfold nextLineIsUnderline, getLine.
    rewrite lookup_ge_None_2 by (unfold lineCount in Hlast; lia).
    apply orb_false_r.
Qed.

Lemma trimStart_whitespace a b :
  Forall (λ x, isWhiteSpace x = true) a → trimStart (a ++ b) = trimStart b.
Proof. induction 1 as [|x a Hx _ IH]; simpl; [done|]. by rewrite Hx. Qed.

Lemma rev_replicate {A} n (x : A) : rev (replicate n x) = replicate n x.
Proof.
  induction n as [|n IH]; simpl; [done|].
  by rewrite IH, <- replicate_S_end.
Qed.

(** X3: a line that matches [setextHeaderRx] is, once trimmed, a non-empty
    run of one character, ['='] or ['-']: an underline never mixes the two
    and never holds anything else, and such a line is not blank. *)
Theorem setextHeaderRx_trim s :
  setextHeaderRx s = true →
  ∃ k c, (c = EQUALS ∨ c = HYPHEN) ∧ trim s = replicate (S k) c
         ∧ isBlank s = false.
Proof.
  intros H. apply setextHeaderRx_lang in H as (n & k & c & t & -> & Hc & Ht).
  exists k, c. split; [done|].
  assert (isWhiteSpace c = false) as Hws by (by destruct Hc as [-> | ->]).
  assert (trim (replicate n SPACE ++ replicate (S k) c ++ t)
          = replicate (S k) c) as Htrim.
  { unfold trim, trimEnd.
    rewrite trimStart_whitespace by (by apply Forall_replicate).
    assert (trimStart (replicate (S k) c ++ t) = replicate (S k) c ++ t)
      as -> by (simpl; by rewrite Hws).
    rewrite rev_app_distr, trimStart_whitespace by (by apply Forall_rev).
    rewrite rev_replicate. simpl. rewrite Hws.
    change (c :: replicate k c) with (replicate (S k) c).
    apply rev_replicate. }
  split; [done|]. unfold isBlank. by rewrite Htrim.
Qed.

Lemma setextHeaderRx_trim_witness :
  ∃ k c, (c = EQUALS ∨ c = HYPHEN)
         ∧ trim (js "  ---  ") = replicate (S k) c
         ∧ isBlank (js "  ---  ") = false.
Proof. apply (setextHeaderRx_trim (js "  ---  ")). reflexivity. Defined.

(** ** Building the list *)

Lemma firstNonBlankFrom_None lines i :
  firstNonBlankFrom lines i = None ↔ Forall (λ l, isBlank l = true) lines.
Proof.
  revert i. induction lines as [|line lines IH]; intros i; simpl.
  - split; [by constructor|done].
  - destruct (isBlank line) eqn:Hb.
    + rewrite IH. split; [by constructor|]. by inv 1.
    + split; [done|]. inv 1. congruence.
Qed.

(** X4: on a document without a non-blank line, the empty document
    included, [makeSectionList] returns and never throws; the list is empty,
    no section object is made or touched, and the current section stays
    what it was. *)
Theorem makeSectionList_blank_document m :
  Forall (λ l, isBlank l = true) (docLines (cm m)) →
  makeSectionList m = Returns tt (set_sectionList (Some []) m).
Proof.
  intros Hblank. rewrite makeSectionList_forEach. unfold classifiedLines.
  unfold firstNonBlank. by rewrite (proj2 (firstNonBlankFrom_None _ 0) Hblank).
Qed.

Lemma makeSectionList_blank_document_witness :
  Forall (λ l, isBlank l = true) [js ""; js "   "]
  ∧ makeSectionList
      (set_cm (mkCodeMirror [js ""; js "   "] (λ _, atx)) exampleManager)
    = Returns tt
        (set_sectionList (Some [])
           (set_cm (mkCodeMirror [js ""; js "   "] (λ _, atx))
              exampleManager)).
Proof.
  split; [by repeat constructor|].
  apply (makeSectionList_blank_document
           (set_cm (mkCodeMirror [js ""; js "   "] (λ _, atx))
              exampleManager)).
  by repeat constructor.
Defined.

(** X5: [makeSectionList] throws in one situation only: the manager has no
    current section, no list having been built before, and the first
    non-blank line of the document is neither line 0 nor a flagged line.
    The error is then a [TypeError], raised before any section object is
    made: the manager is left as it was but for an empty list. In every
    other situation the call returns. *)
Theorem makeSectionList_throws_iff m :
  (∀ e m', makeSectionList m = Throws e m' ↔
     (_currentSection m = None
      ∧ ∃ f, firstNonBlank (cm m) = Some f ∧ f ≠ 0
             ∧ isSectionAt (cm m) f = false)
     ∧ e = TypeError ∧ m' = set_sectionList (Some []) m)
  ∧ ((∃ m', makeSectionList m = Returns tt m') ↔
     ¬ (_currentSection m = None
        ∧ ∃ f, firstNonBlank (cm m) = Some f ∧ f ≠ 0
               ∧ isSectionAt (cm m) f = false)).
Proof.
  assert (_currentSection m = None
          ∧ (∃ f, firstNonBlank (cm m) = Some f ∧ f ≠ 0
                  ∧ isSectionAt (cm m) f = false) →
          makeSectionList m = Throws TypeError (set_sectionList (Some []) m))
    as Hthrow.
  { intros (Hcur & f & Hf & H0 & Hs). rewrite makeSectionList_forEach.
    unfold classifiedLines. rewrite Hf.
    pose proof (firstNonBlank_lt _ _ Hf) as Hlt.
    destruct (lineCount (cm m) - f) as [|k] eqn:Hk; [lia|].
    cbn [seq fmap list_fmap forEach]. unfold bind, sectionIteratee, classify.
    cbn [fst snd]. rewrite Hs. apply Nat.eqb_neq in H0. rewrite H0. simpl.
    unfold _updateCurrentSectionEnd. simpl. by rewrite Hcur. }
  pose proof (makeSectionList_build m) as Hb.
  pose proof (build_classifiedLines_None (cm m)
                (bool_decide (_currentSection m = None))) as Hnone.
  destruct (build _ [] (classifiedLines (cm m))) as [l|].
  - assert (¬ (_currentSection m = None
               ∧ ∃ f, firstNonBlank (cm m) = Some f ∧ f ≠ 0
                      ∧ isSectionAt (cm m) f = false)) as Hno.
    { intros [Hcur Hf]. destruct Hnone as [_ Hnone].
      discriminate Hnone. split; [|done]. by apply bool_decide_eq_true_2. }
    destruct Hb as (m1 & news & Hrun & _). split.
    + intros e m'. rewrite Hrun. split; [done|]. by intros [? _].
    + split; [done|]. intros _. by exists m1.
  - destruct Hnone as [Hnone _]. destruct (Hnone eq_refl) as [Hcur Hf].
    apply bool_decide_eq_true_1 in Hcur.
    specialize (Hthrow (conj Hcur Hf)). split.
    + intros e m'. rewrite Hthrow. split.
      * intros [= <- <-]. done.
      * intros (_ & -> & ->). done.
    + rewrite Hthrow. split; [by intros [? ?]|]. intros Hno. by destruct Hno.
Qed.

Lemma keepsOld_refl m : keepsOld m m.
Proof.
  split; [done|]. split; [by intros r _|]. split; [intros r ?; lia|by left].
Qed.

Lemma keepsOld_set_sectionList m0 m l :
  keepsOld m0 m → keepsOld m0 (set_sectionList l m).
Proof. done. Qed.

Lemma keepsOld_step m0 m b n :
  keepsOld m0 m → keepsOld m0 (finalState (sectionIteratee b n m)).
Proof.
  intros Hm. pose proof Hm as (Hlen & Hold & Hnew & Hcur).
  unfold sectionIteratee. destruct ((n =? 0) || b).
  - unfold _addNewSection. simpl.
    assert (keepsOld m0
              (set_store (store m ++ [_makeSectionData n n]) m)) as Hm1.
    { split; [simpl; rewrite length_app; lia|]. split; [|split; [|done]].
      - intros r Hr. simpl. rewrite lookup_app_l by lia. by apply Hold.
      - intros r. simpl. rewrite length_app. simpl. intros Hr.
        destruct (decide (r < length (store m))) as [Hlt|Hge].
        + rewrite lookup_app_l by done. apply Hnew. lia.
        + rewrite list_lookup_middle by lia. done. }
    destruct (_sectionList m) as [l|]; simpl; [|done].
    destruct Hm1 as (Hlen1 & Hold1 & Hnew1 & _).
    split; [done|]. split; [done|]. split; [done|].
    right. exists (length (store m)). done.
  - unfold _updateCurrentSectionEnd.
    destruct (_currentSection m) as [rc|] eqn:Hrc; simpl; [|exact Hm].
    unfold keepsOld. simpl. rewrite length_alter, Hrc.
    split; [done|]. split; [|split; [|done]].
    + intros r Hr. destruct (Hold r Hr) as (Hs & Hp & Hsame).
      destruct (decide (rc = r)) as [->|Hne].
      * rewrite list_lookup_alter_eq. split; [|split].
        -- rewrite <- Hs. by destruct (store m !! r).
        -- rewrite <- Hp. by destruct (store m !! r).
        -- intros Hc0. destruct Hcur as [Hc|(r' & Hc & Hr')].
           ++ congruence.
           ++ injection Hc as <-. lia.
      * by rewrite list_lookup_alter_ne.
    + intros r Hr. destruct (decide (rc = r)) as [->|Hne].
      * rewrite list_lookup_alter_eq, <- (Hnew r Hr).
        by destruct (store m !! r).
      * rewrite list_lookup_alter_ne by done. by apply Hnew.
Qed.

Lemma keepsOld_forEach evs : ∀ m0 m,
  keepsOld m0 m →
  keepsOld m0 (finalState (forEach (λ p, sectionIteratee p.1 p.2) evs m)).
Proof.
  induction evs as [|[b n] evs IH]; intros m0 m Hm; [done|].
  cbn [forEach]. unfold bind. cbn [fst snd].
  pose proof (keepsOld_step m0 m b n Hm) as Hstep.
  destruct (sectionIteratee b n m) as [[] m1|e m1]; [|done].
  by apply IH.
Qed.

Lemma makeSectionList_keepsOld m :
  keepsOld m (finalState (makeSectionList m)).
Proof.
  rewrite makeSectionList_forEach. apply keepsOld_forEach.
  apply keepsOld_set_sectionList, keepsOld_refl.
Qed.

(** X6: the list [makeSectionList] builds refers to section objects made by
    this call, each one once, none with a preview link yet. The objects
    that existed before are all still there with their [start] and their
    link, and none of them is changed at all, except that the [end] of the
    section that was current before the call may be. *)
Theorem makeSectionList_fresh_objects m m' :
  makeSectionList m = Returns tt m' →
  ∃ l, _sectionList m' = Some l
    ∧ NoDup l
    ∧ (∀ r, r ∈ l →
         length (store m) ≤ r
         ∧ ∃ s, store m' !! r = Some s ∧ previewSectionEl s = None)
    ∧ (∀ r s, store m !! r = Some s →
         ∃ s', store m' !! r = Some s'
               ∧ start s' = start s
               ∧ previewSectionEl s' = previewSectionEl s
               ∧ (_currentSection m ≠ Some r → s' = s)).
Proof.
  intros Hrun. pose proof (makeSectionList_keepsOld m) as Hkeep.
  rewrite Hrun in Hkeep. simpl in Hkeep.
  destruct Hkeep as (Hlen & Hold & Hnew & _).
  destruct (makeSectionList_returns _ _ Hrun)
    as (rs & _ & _ & (news & Hon & _) & _).
  destruct Hon as [(pre & Hst & Hpre) [Hl _]].
  exists (seq (length (store m)) (length news)). split; [done|].
  split; [apply NoDup_seq|]. split.
  - intros r Hr. apply elem_of_seq in Hr. split; [lia|].
    assert (r < length (store m')) as Hlt.
    { rewrite Hst, length_app. lia. }
    destruct (lookup_lt_is_Some_2 _ _ Hlt) as [s Hs]. exists s.
    split; [done|]. specialize (Hnew r ltac:(lia)). rewrite Hs in Hnew.
    simpl in Hnew. congruence.
  - intros r s Hs. pose proof (lookup_lt_Some _ _ _ Hs) as Hr.
    destruct (Hold r Hr) as (Hstart & Hlink & Hsame).
    rewrite Hs in Hstart, Hlink, Hsame. simpl in *.
    destruct (store m' !! r) as [s'|]; [|done]. exists s'.
    simpl in *. repeat split; try congruence.
    intros Hc. specialize (Hsame Hc). congruence.
Qed.

Lemma makeSectionList_fresh_objects_witness :
  makeSectionList (set_cm editedDoc exampleManager)
  = Returns tt (finalState (makeSectionList (set_cm editedDoc exampleManager)))
  ∧ ∃ l, _sectionList
           (finalState (makeSectionList (set_cm editedDoc exampleManager)))
         = Some l ∧ NoDup l.
Proof.
  assert (makeSectionList (set_cm editedDoc exampleManager)
          = Returns tt
              (finalState (makeSectionList (set_cm editedDoc exampleManager))))
    as Hrun by (vm_compute; reflexivity).
  split; [exact Hrun|].
  destruct (makeSectionList_fresh_objects _ _ Hrun) as (l & Hl & Hnd & _).
  exists l. split; [exact Hl|exact Hnd].
Defined.




Lemma filter_opens_classify c (L : list nat) :
  (filter (λ p, opens p = true) (classify c <$> L)).*2
  = filter (λ i, i = 0 ∨ isSectionAt c i = true) L.
Proof.
  induction L as [|i L IH]; [done|]. cbn [fmap list_fmap].
  destruct ((i =? 0) || isSectionAt c i) eqn:Ho.
  - rewrite filter_cons_True by done. rewrite filter_cons_True.
    + simpl. by rewrite <- IH.
    + apply orb_true_iff in Ho as [Ho|Ho]; [left|by right].
      by apply Nat.eqb_eq in Ho.
  - rewrite filter_cons_False by (unfold opens; simpl; congruence).
    rewrite filter_cons_False; [done|].
    apply orb_false_iff in Ho as [Ho Hs]. apply Nat.eqb_neq in Ho.
    intros [?|?]; congruence.
Qed.

(** X8: the list [makeSectionList] returns with is determined by the
    flags. Its sections start, in order, at the lines from the first
    non-blank line on that are line 0 or flagged, one section per such
    line; each section ends on the line before the next section starts,
    and the last one on the last line of the document. *)
Theorem makeSectionList_starts_and_ends m m' :
  makeSectionList m = Returns tt m' →
  ∃ l, sectionRanges m' = Some l
    ∧ l.*1 = filter (λ i, i = 0 ∨ isSectionAt (cm m) i = true)
               (match firstNonBlank (cm m) with
                | None => []
                | Some f => seq f (lineCount (cm m) - f)
                end)
    ∧ ∀ j s e, l !! j = Some (s, e) →
        s ≤ e
        ∧ match l !! S j with
          | Some (s', _) => s' = S e
          | None => lineCount (cm m) = S e
          end.
Proof.
  intros Hrun.
  destruct (makeSectionList_returns _ _ Hrun) as (l & Hb & Hl & _ & _).
  exists l. split; [done|]. split.
  - apply build_starts in Hb. simpl in Hb. rewrite Hb.
    unfold classifiedLines. destruct (firstNonBlank (cm m)); [|done].
    apply filter_opens_classify.
  - apply build_classifiedLines_shape in Hb as [->|(lo & f & _ & _ & Ht)];
      [done|].
    intros j s e Hj. destruct (tiles_lookup _ _ _ _ _ _ Ht Hj) as (_ & ? & _).
    split; [done|]. destruct (l !! S j) as [[s' e']|] eqn:Hn.
    + by eapply tiles_next.
    + apply (tiles_last lo l _ s e Ht).
      apply lookup_ge_None in Hn. apply lookup_lt_Some in Hj as Hlt.
      by replace (length l - 1) with j by lia.
Qed.

Lemma makeSectionList_starts_and_ends_witness :
  ∃ l, sectionRanges exampleManager = Some l
       ∧ l.*1 = filter (λ i, i = 0 ∨ isSectionAt exampleDoc i = true)
                  (seq 1 5).
Proof.
  assert (makeSectionList (newSectionManager exampleDoc [] 0)
          = Returns tt exampleManager) as Hrun by (vm_compute; reflexivity).
  destruct (makeSectionList_starts_and_ends _ _ Hrun) as (l & Hl & Hs & _).
  exists l. split; [exact Hl|exact Hs].
Defined.

(** ** Looking a line up *)

Lemma ranges_valid h l :
  validRefs h l →
  Forall2 (λ r p, ∃ s, h !! r = Some s ∧ p = rangeOf s) l (ranges h l).
Proof.
  unfold validRefs, ranges. induction l as [|r l IH]; intros Hv.
  - constructor.
  - destruct (Hv r) as [s Hs]; [left|]. cbn [omap list_omap].
    rewrite Hs. simpl. constructor; [by exists s|].
    apply IH. intros r' Hr'. apply Hv. by right.
Qed.

Lemma ranges_valid_length h l :
  validRefs h l → length (ranges h l) = length l.
Proof. intros Hv. symmetry. eapply Forall2_length, ranges_valid, Hv. Qed.

Lemma ranges_valid_lookup h l i r :
  validRefs h l → l !! i = Some r →
  ∃ s, h !! r = Some s ∧ ranges h l !! i = Some (rangeOf s).
Proof.
  intros Hv Hr. pose proof (ranges_valid h l Hv) as Hf.
  eapply Forall2_lookup_l in Hf as (p & Hp & s & Hs & ->); [|exact Hr].
  by exists s.
Qed.

Lemma sectionByLineLoop_valid h l line :
  validRefs h l → ∀ remaining sectionIndex,
  sectionIndex + remaining = length l →
  sectionByLineLoop h l line remaining sectionIndex
  = Some (sectionIndex
          + firstReaching line (drop sectionIndex (ranges h l))).
Proof.
  intros Hv. pose proof (ranges_valid_length h l Hv) as Hlen.
  induction remaining as [|remaining IH]; intros idx Hidx.
  - rewrite drop_ge by lia. simpl. by rewrite Nat.add_0_r.
  - destruct (lookup_lt_is_Some_2 l idx) as [r Hr]; [lia|].
    destruct (ranges_valid_lookup h l idx r Hv Hr) as (s & Hs & Hp).
    simpl. unfold endAt. rewrite Hr. simpl. rewrite Hs. simpl.
    rewrite (drop_S _ _ _ Hp). simpl.
    destruct (line <=? end_ s); [by rewrite Nat.add_0_r|].
    rewrite Nat.add_1_r, IH by lia. f_equal. lia.
Qed.

Lemma chosenIndex_lt line l : l ≠ [] → chosenIndex line l < length l.
Proof.
  intros Hne. unfold chosenIndex. pose proof (firstReaching_le line l).
  assert (0 < length l) by (destruct l; simpl; [done|lia]).
  destruct (firstReaching line l =? length l) eqn:E.
  - lia.
  - apply Nat.eqb_neq in E. lia.
Qed.

(** What [sectionByLine] returns on a list whose references are valid. *)
Lemma sectionByLine_valid m l line :
  _sectionList m = Some l → validRefs (store m) l →
  sectionByLine line m
  = Returns (match l with
             | [] => None
             | _ :: _ => l !! chosenIndex line (ranges (store m) l)
             end) m.
Proof.
  intros Hl Hv. unfold sectionByLine. rewrite Hl.
  rewrite (sectionByLineLoop_valid _ _ _ Hv (length l) 0) by done.
  rewrite drop_0. simpl.
  pose proof (ranges_valid_length _ _ Hv) as Hlen.
  destruct l as [|r0 l0]; [done|]. set (l := r0 :: l0) in *.
  f_equal. unfold elementAt, chosenIndex. rewrite Hlen.
  pose proof (firstReaching_le line (ranges (store m) l)) as Hfr.
  assert (0 < length l) by (simpl; lia).
  destruct (firstReaching line (ranges (store m) l) =? length l).
  - rewrite (proj2 (Z.ltb_ge _ _)) by lia. f_equal. lia.
  - rewrite (proj2 (Z.ltb_ge _ _)) by lia. by rewrite Nat2Z.id.
Qed.

(** X9: [sectionByLine] on any list, built for this document or not. It
    never changes the manager. It throws a [TypeError] when the list is
    [null], and returns [undefined] when the list is empty. On a non-empty
    list it returns a section of the list before which every section ends
    before [line], and which itself ends at or after [line] or else is the
    last one of the list. *)
Theorem sectionByLine_any_list m line :
  (_sectionList m = None → sectionByLine line m = Throws TypeError m)
  ∧ ∀ l, _sectionList m = Some l → validRefs (store m) l →
      ∃ res, sectionByLine line m = Returns res m
        ∧ (l = [] → res = None)
        ∧ (l ≠ [] →
           ∃ i r s, res = Some r ∧ l !! i = Some r ∧ store m !! r = Some s
             ∧ (∀ j r' s', j < i → l !! j = Some r' →
                  store m !! r' = Some s' → end_ s' < line)
             ∧ (line ≤ end_ s ∨ S i = length l)).
Proof.
  split.
  { intros Hl. unfold sectionByLine. by rewrite Hl. }
  intros l Hl Hv. eexists. split; [by apply sectionByLine_valid|].
  split; [by intros ->|]. intros Hne.
  pose proof (ranges_valid_length _ _ Hv) as Hlen.
  assert (∀ j r', l !! j = Some r' →
            ∃ s', store m !! r' = Some s'
                  ∧ ranges (store m) l !! j = Some (rangeOf s')) as Hlk
    by (intros j r'; by apply ranges_valid_lookup).
  set (rs := ranges (store m) l) in *.
  assert (rs ≠ []) as Hrs by (intros E; rewrite E in Hlen; by destruct l).
  pose proof (chosenIndex_lt line rs Hrs) as Hi.
  set (i := chosenIndex line rs) in *.
  destruct (lookup_lt_is_Some_2 l i) as [r Hr]; [lia|].
  destruct (Hlk _ _ Hr) as (s & Hs & Hp).
  exists i, r, s. destruct l as [|r0 l0]; [done|].
  split; [done|]. split; [done|]. split; [done|].
  pose proof (firstReaching_le line rs) as Hfr.
  assert (i ≤ firstReaching line rs
          ∧ (firstReaching line rs < length rs → i = firstReaching line rs)
          ∧ (firstReaching line rs = length rs → S i = length rs))
    as (Hle & Hin & Hout).
  { subst i. unfold chosenIndex.
    destruct (firstReaching line rs =? length rs) eqn:E.
    - apply Nat.eqb_eq in E. lia.
    - apply Nat.eqb_neq in E. lia. }
  split.
  - intros j r' s' Hj Hr' Hs'.
    destruct (Hlk _ _ Hr') as (s2 & Hs2 & Hp').
    assert (s2 = s') as -> by congruence.
    apply (firstReaching_before line rs j (start s')); [lia|done].
  - destruct (decide (firstReaching line rs < length rs)) as [Hlt|Hge].
    + left. destruct (firstReaching_reaches line rs Hlt)
        as (s1 & e1 & Hfe & He).
      rewrite <- (Hin Hlt), Hp in Hfe. by injection Hfe as _ <-.
    + right. rewrite <- Hlen. apply Hout. lia.
Qed.

Lemma sectionByLine_any_list_witness :
  validRefs (store exampleManager) [0; 1]
  ∧ ∃ res, sectionByLine 7 exampleManager = Returns res exampleManager.
Proof.
  assert (validRefs (store exampleManager) [0; 1]) as Hv.
  { intros r Hr. apply list_elem_of_In in Hr.
    destruct Hr as [<-|[<-|[]]]; eexists; reflexivity. }
  split; [exact Hv|].
  destruct (sectionByLine_any_list exampleManager 7) as [_ H].
  destruct (H [0; 1] eq_refl Hv) as (res & Hres & _).
  exists res. exact Hres.
Defined.

Lemma firstReaching_mono line line' l :
  line ≤ line' → firstReaching line l ≤ firstReaching line' l.
Proof.
  intros Hle. induction l as [|[s e] l IH]; simpl; [done|].
  destruct (line' <=? e) eqn:E'.
  - apply Nat.leb_le in E'. by rewrite (proj2 (Nat.leb_le line e)) by lia.
  - destruct (line <=? e); lia.
Qed.

Lemma chosenIndex_mono line line' l :
  line ≤ line' → chosenIndex line l ≤ chosenIndex line' l.
Proof.
  intros Hle. pose proof (firstReaching_mono line line' l Hle).
  pose proof (firstReaching_le line l). pose proof (firstReaching_le line' l).
  unfold chosenIndex.
  destruct (firstReaching line l =? length l) eqn:E;
    destruct (firstReaching line' l =? length l) eqn:E';
    rewrite ?Nat.eqb_eq, ?Nat.eqb_neq in *; lia.
Qed.

(** X10: lookup follows the document downwards. On a non-empty list with
    valid references, the section returned for a line is never later in
    the list than the section returned for a line further down. *)
Theorem sectionByLine_monotone m l line line' :
  _sectionList m = Some l → validRefs (store m) l → l ≠ [] →
  line ≤ line' →
  ∃ i i' r r',
    sectionByLine line m = Returns (Some r) m
    ∧ sectionByLine line' m = Returns (Some r') m
    ∧ l !! i = Some r ∧ l !! i' = Some r' ∧ i ≤ i'.
Proof.
  intros Hl Hv Hne Hle.
  pose proof (ranges_valid_length _ _ Hv) as Hlen.
  set (rs := ranges (store m) l) in *.
  assert (rs ≠ []) as Hrs by (intros E; rewrite E in Hlen; by destruct l).
  pose proof (chosenIndex_lt line rs Hrs) as Hi.
  pose proof (chosenIndex_lt line' rs Hrs) as Hi'.
  destruct (lookup_lt_is_Some_2 l (chosenIndex line rs)) as [r Hr]; [lia|].
  destruct (lookup_lt_is_Some_2 l (chosenIndex line' rs)) as [r' Hr']; [lia|].
  exists (chosenIndex line rs), (chosenIndex line' rs), r, r'.
  rewrite !(sectionByLine_valid m l) by done. fold rs.
  destruct l as [|r0 l0]; [done|]. rewrite Hr, Hr'.
  repeat split; try done. by apply chosenIndex_mono.
Qed.

Lemma sectionByLine_monotone_witness :
  ∃ i i' r r',
    sectionByLine 2 exampleManager = Returns (Some r) exampleManager
    ∧ sectionByLine 5 exampleManager = Returns (Some r') exampleManager
    ∧ [0; 1] !! i = Some r ∧ [0; 1] !! i' = Some r' ∧ i ≤ i'.
Proof.
  apply (sectionByLine_monotone exampleManager [0; 1] 2 5).
  - reflexivity.
  - intros r Hr. apply list_elem_of_In in Hr.
    destruct Hr as [<-|[<-|[]]]; eexists; reflexivity.
  - discriminate.
  - lia.
Defined.

Lemma sectionByLineLoop_ends h h' l line :
  (∀ r, end_ <$> h' !! r = end_ <$> h !! r) →
  ∀ remaining sectionIndex,
    sectionByLineLoop h' l line remaining sectionIndex
    = sectionByLineLoop h l line remaining sectionIndex.
Proof.
  intros Hends. induction remaining as [|remaining IH]; intros idx; [done|].
  simpl. unfold endAt. destruct (l !! idx) as [r|]; simpl; [|done].
  rewrite Hends. destruct (end_ <$> h !! r); simpl; [|done].
  by rewrite IH.
Qed.

(** X11: matching the preview does not disturb lookup. [sectionMatch]
    returns, and afterwards [sectionByLine] gives for every line what it
    gave before: the same section, the same [undefined], or the same
    error. *)
Theorem sectionByLine_after_sectionMatch m line :
  ∃ m', sectionMatch m = Returns tt m'
    ∧ valueOf (sectionByLine line m') = valueOf (sectionByLine line m).
Proof.
  destruct (_sectionList m) as [l|] eqn:Hl.
  2:{ exists m. unfold sectionMatch, bind, gets. by rewrite Hl. }
  rewrite (sectionMatch_unfold m l Hl).
  destruct (matchLoop_spec
              (imap pair
                 (groupElements
                    (filter (λ n, nodeType n = ELEMENT_NODE)
                       (previewContent m)))) m l Hl)
    as (m' & -> & Hl' & _ & _ & _ & Hr' & _).
  exists m'. split; [done|].
  assert (∀ r, end_ <$> store m' !! r = end_ <$> store m !! r) as Hends.
  { intros r. assert (rangeOf <$> store m' !! r = rangeOf <$> store m !! r)
      as Hr by (by rewrite <- !list_lookup_fmap, Hr').
    destruct (store m' !! r), (store m !! r); unfold rangeOf in *;
      simpl in *; congruence. }
  unfold sectionByLine. rewrite Hl', Hl.
  rewrite (sectionByLineLoop_ends _ _ _ _ Hends).
  by destruct (sectionByLineLoop _ _ _ _ _).
Qed.

(** ** Grouping the preview *)

Section GroupBy.
Context (isHeading : jsstring → bool).

Lemma groupBy_concat els : ∀ closed current,
  concat (groupBy isHeading closed current els)
  = concat closed ++ current ++ els.
Proof.
  induction els as [|el els IH]; intros closed current; simpl.
  - by rewrite concat_app, app_nil_r; simpl; rewrite app_nil_r.
  - destruct (_ && _); rewrite IH.
    + rewrite concat_app. simpl. by rewrite app_nil_r, <- app_assoc.
    + by rewrite <- !app_assoc.
Qed.

Lemma groupBy_length els : ∀ closed current,
  current ≠ [] →
  length (groupBy isHeading closed current els)
  = length closed + 1
    + length (filter (λ el, isHeading (tagName el) = true) els).
Proof.
  induction els as [|el els IH]; intros closed current Hne; simpl.
  - rewrite length_app. simpl. lia.
  - assert (negb (length current =? 0) = true) as ->
      by (by destruct current).
    rewrite andb_true_r. destruct (isHeading (tagName el)) eqn:Hh.
    + rewrite filter_cons_True by done. rewrite IH by done.
      rewrite length_app. simpl. lia.
    + rewrite filter_cons_False by congruence. apply IH.
      by destruct current.
Qed.

Lemma groupBy_nonempty_groups els : ∀ closed current,
  Forall (λ g, g ≠ []) closed → current ≠ [] ∨ els ≠ [] →
  Forall (λ g, g ≠ []) (groupBy isHeading closed current els).
Proof.
  induction els as [|el els IH]; intros closed current Hc Hne; simpl.
  - apply Forall_app. split; [done|]. constructor; [|done]. by destruct Hne.
  - destruct (isHeading (tagName el) && negb (length current =? 0)) eqn:E.
    + apply IH; [|by left]. apply Forall_app. split; [done|].
      constructor; [|done]. apply andb_true_iff in E as [_ E].
      by destruct current.
    + apply IH; [done|]. left. by destruct current.
Qed.

Lemma tail_app_nonempty {A} (l k : list A) :
  l ≠ [] → tail (l ++ k) = tail l ++ k.
Proof. by destruct l. Qed.

Lemma groupBy_shape els : ∀ closed current,
  Forall (plainTail isHeading) (closed ++ [current]) →
  Forall (headed isHeading) (tail (closed ++ [current])) →
  Forall (plainTail isHeading) (groupBy isHeading closed current els)
  ∧ Forall (headed isHeading) (tail (groupBy isHeading closed current els)).
Proof.
  induction els as [|el els IH]; intros closed current Hp Hh; [done|].
  simpl.
  destruct (isHeading (tagName el) && negb (length current =? 0)) eqn:E.
  - apply andb_true_iff in E as [Hel _]. apply IH.
    + apply Forall_app. split; [done|]. constructor; [|done].
      unfold plainTail. simpl. constructor.
    + rewrite tail_app_nonempty by (by destruct closed).
      apply Forall_app. split; [done|]. constructor; [|done].
      by exists el, [].
  - apply Forall_app in Hp as [Hpc Hpcur]. apply Forall_inv in Hpcur.
    apply IH.
    + apply Forall_app. split; [done|]. constructor; [|done].
      unfold plainTail in *. destruct current as [|c current]; simpl.
      * constructor.
      * apply Forall_app. split; [done|]. constructor; [|done].
        simpl in E. by rewrite andb_true_r in E.
    + destruct closed as [|c closed]; simpl; [constructor|].
      simpl in Hh. apply Forall_app in Hh as [Hhc Hhcur].
      apply Forall_inv in Hhcur as (h & rest & -> & Hh').
      apply Forall_app. split; [done|]. constructor; [|done].
      by exists h, (rest ++ [el]).
Qed.
End GroupBy.

(** X12: [_getPreviewSections] changes nothing and splits the element
    children of the preview, text and comment nodes left out, into
    consecutive groups: joined in order the groups give back the elements,
    none lost, repeated or moved. Every group after the first begins with
    an element whose tag matches the heading expression; no group holds
    such an element after its first place; and when the preview has an
    element at all, no group is empty. *)
Theorem getPreviewSections_partition m :
  ∃ groups,
    _getPreviewSections m = Returns groups m
    ∧ concat groups = previewElements m
    ∧ (∀ n, n ∈ concat groups → nodeType n = ELEMENT_NODE)
    ∧ (∀ i g, groups !! i = Some g →
         (0 < i → ∃ h rest, g = h :: rest
                            ∧ headingTagRx (tagName h) = true)
         ∧ (∀ j el, 0 < j → g !! j = Some el →
                    headingTagRx (tagName el) = false)
         ∧ (previewElements m ≠ [] → g ≠ [])).
Proof.
  exists (groupElements (previewElements m)). split; [done|].
  rewrite groupElements_groupBy.
  assert (concat (groupBy headingTagRx [] [] (previewElements m))
          = previewElements m) as Hcat by (by rewrite groupBy_concat).
  split; [done|]. split.
  { intros n Hn. rewrite Hcat in Hn. unfold previewElements in Hn.
    by apply list_elem_of_filter in Hn as [? _]. }
  destruct (groupBy_shape headingTagRx (previewElements m) [] [])
    as [Hplain Hheaded].
  { repeat constructor. }
  { constructor. }
  intros i g Hg. split; [|split].
  - intros Hi. destruct i as [|i]; [lia|].
    rewrite Forall_forall in Hheaded. apply Hheaded.
    apply list_elem_of_In, list_elem_of_lookup. exists i.
    by rewrite lookup_tail.
  - intros j el Hj Hel. rewrite Forall_forall in Hplain.
    assert (plainTail headingTagRx g) as Hpg.
    { apply Hplain, list_elem_of_In, list_elem_of_lookup. by exists i. }
    unfold plainTail in Hpg. rewrite Forall_forall in Hpg. apply Hpg.
    apply list_elem_of_In, list_elem_of_lookup. exists (j - 1).
    rewrite lookup_tail. by replace (S (j - 1)) with j by lia.
  - intros Hne.
    pose proof (groupBy_nonempty_groups headingTagRx (previewElements m)
                  [] [] ltac:(constructor) (or_intror Hne)) as Hall.
    rewrite Forall_forall in Hall. apply Hall.
    apply list_elem_of_In, list_elem_of_lookup. by exists i.
Qed.

(** X13: the number of groups. An empty sequence of elements gives one
    group; otherwise the first element joins the first group whatever its
    tag, and each later element whose tag matches the heading expression
    opens one more group. *)
Theorem groupElements_count els :
  length (groupElements els)
  = match els with
    | [] => 1
    | _ :: els' =>
        1 + length (filter (λ el, headingTagRx (tagName el) = true) els')
    end.
Proof.
  rewrite groupElements_groupBy. destruct els as [|el els]; [done|].
  simpl. rewrite andb_false_r. by rewrite groupBy_length.
Qed.

(** ** Matching sections and groups *)

Lemma imap_pair_fst {A} (l : list A) : (imap pair l).*1 = seq 0 (length l).
Proof.
  apply list_eq. intros i. rewrite list_lookup_fmap, list_lookup_imap.
  destruct (l !! i) as [x|] eqn:Hx; simpl.
  - apply lookup_lt_Some in Hx. by rewrite lookup_seq_lt.
  - apply lookup_ge_None in Hx. by rewrite lookup_seq_ge.
Qed.

Lemma imap_pair_elem {A} (l : list A) i x :
  (i, x) ∈ imap pair l ↔ l !! i = Some x.
Proof.
  rewrite list_elem_of_lookup. split.
  - intros [j Hj]. rewrite list_lookup_imap in Hj.
    destruct (l !! j) eqn:E; simpl in Hj; [|done]. by injection Hj as <- <-.
  - intros Hx. exists i. by rewrite list_lookup_imap, Hx.
Qed.

(** The link each section is left with by the [forEach], when no two
    groups share an index and no two positions of the list an object. *)
Lemma matchLoop_links items : ∀ m l,
  _sectionList m = Some l → NoDup l → NoDup items.*1 →
  ∃ m', forEach matchCallback items m = Returns tt m'
    ∧ ∀ index childs r,
        (index, childs) ∈ items → l !! index = Some r →
        is_Some (store m !! r) →
        ∃ q, previewSectionEl <$> store m' !! r = Some (Some q)
             ∧ (q = [] ↔ childs = [])
             ∧ ∀ id, id ∈ q → nextNodeId m ≤ id.
Proof.
  induction items as [|[i0 g0] items IH]; intros m l Hl Hnd Hidx.
  { exists m. split; [done|]. intros ? ? ? Hin. by apply elem_of_nil in Hin. }
  cbn [forEach]. unfold bind.
  destruct (matchCallback_spec i0 g0 m l Hl)
    as (m1 & -> & Hl1 & _ & _ & Hn1 & Hst1).
  simpl in Hidx. apply list.NoDup_cons in Hidx as [Hi0 Hidx].
  destruct (IH m1 l Hl1 Hnd Hidx) as (m' & Hrun & Hlinks).
  destruct (matchLoop_spec items m1 l Hl1)
    as (m2 & Hrun2 & _ & _ & _ & _ & _ & Hu & _).
  rewrite Hrun in Hrun2. injection Hrun2 as <-.
  exists m'. split; [done|]. intros index childs r Hin Hr [x Hx].
  apply elem_of_cons in Hin as [[= -> ->]|Hin].
  - rewrite Hr in Hst1. rewrite Hu.
    + rewrite Hst1, list_lookup_alter_eq, Hx. simpl. eexists.
      split; [done|]. split.
      * by destruct g0.
      * intros id Hid. destruct g0; [by apply elem_of_nil in Hid|].
        by apply list_elem_of_singleton in Hid as ->.
    + intros i c Hic Hri. apply Hi0.
      assert (i = i0) as <- by exact (NoDup_lookup l i i0 r Hnd Hri Hr).
      apply list_elem_of_fmap. by exists (i, c).
  - destruct (Hlinks index childs r Hin Hr) as (q & Hq & Hempty & Hfresh).
    { rewrite Hst1. destruct (l !! i0); [|by exists x].
      apply lookup_lt_is_Some. rewrite length_alter.
      by apply lookup_lt_Some in Hx. }
    exists q. split; [done|]. split; [done|].
    intros id Hid. specialize (Hfresh id Hid). lia.
Qed.

(** X14: sections and groups are paired by position. On a list with valid
    references, none twice, [sectionMatch] gives the section at position
    [i] a link exactly when the grouping has a group [i]: the link is then
    a jQuery object made by this call, empty exactly when the group is
    empty. A section beyond the last group is not written at all and keeps
    the link it had, if any. *)
Theorem sectionMatch_pairs_by_index m l :
  _sectionList m = Some l → NoDup l → validRefs (store m) l →
  ∃ m' groups,
    _getPreviewSections m = Returns groups m
    ∧ sectionMatch m = Returns tt m'
    ∧ ∀ i r, l !! i = Some r →
        match groups !! i with
        | Some g =>
            ∃ q, previewSectionEl <$> store m' !! r = Some (Some q)
                 ∧ (q = [] ↔ g = [])
                 ∧ ∀ id, id ∈ q → nextNodeId m ≤ id
        | None => store m' !! r = store m !! r
        end.
Proof.
  intros Hl Hnd Hv. rewrite (sectionMatch_unfold m l Hl).
  fold (previewElements m). set (groups := groupElements (previewElements m)).
  destruct (matchLoop_links (imap pair groups) m l Hl Hnd)
    as (m' & Hrun & Hlinks).
  { rewrite imap_pair_fst. apply NoDup_seq. }
  destruct (matchLoop_spec (imap pair groups) m l Hl)
    as (m2 & Hrun2 & _ & _ & _ & _ & _ & Hu & _).
  rewrite Hrun in Hrun2. injection Hrun2 as <-.
  exists m', groups. split; [done|]. split; [done|].
  intros i r Hr. destruct (groups !! i) as [g|] eqn:Hg.
  - apply (Hlinks i g r); [by apply imap_pair_elem|done|].
    apply Hv. by eapply list_elem_of_lookup_2.
  - apply Hu. intros index childs Hin Hri. apply imap_pair_elem in Hin.
    assert (index = i) as -> by exact (NoDup_lookup l index i r Hnd Hri Hr).
    congruence.
Qed.

Lemma sectionMatch_pairs_by_index_witness :
  NoDup [0; 1] ∧ validRefs (store exampleManager) [0; 1]
  ∧ ∃ m', sectionMatch exampleManager = Returns tt m'.
Proof.
  assert (NoDup [0; 1]) as Hnd by (apply (NoDup_seq 0 2)).
  assert (validRefs (store exampleManager) [0; 1]) as Hv.
  { intros r Hr. apply list_elem_of_In in Hr.
    destruct Hr as [<-|[<-|[]]]; eexists; reflexivity. }
  split; [exact Hnd|]. split; [exact Hv|].
  destruct (sectionMatch_pairs_by_index exampleManager [0; 1] eq_refl Hnd Hv)
    as (m' & groups & _ & Hrun & _).
  exists m'. exact Hrun.
Defined.

(** ** What matching does to the preview *)

Lemma NoDup_fmap_eq {A B} (f : A → B) (l : list A) x y :
  NoDup (f <$> l) → x ∈ l → y ∈ l → f x = f y → x = y.
Proof.
  induction l as [|a l IH]; simpl; intros Hnd Hx Hy Hf.
  { by apply elem_of_nil in Hx. }
  apply list.NoDup_cons in Hnd as [Ha Hnd].
  apply elem_of_cons in Hx as [->|Hx]; apply elem_of_cons in Hy as [->|Hy].
  - done.
  - exfalso. apply Ha. rewrite Hf. apply list_elem_of_fmap. by exists y.
  - exfalso. apply Ha. rewrite <- Hf. apply list_elem_of_fmap. by exists x.
  - by apply IH.
Qed.

Lemma flat_map_id_on {A} (f : A → list A) (l : list A) :
  (∀ n, n ∈ l → f n = [n]) → flat_map f l = l.
Proof.
  induction l as [|a l IH]; intros H; simpl; [done|].
  rewrite (H a) by left. simpl. f_equal. apply IH. intros n Hn. apply H.
  by right.
Qed.

Lemma flat_map_nil_on {A B} (f : A → list B) (l : list A) :
  (∀ n, n ∈ l → f n = []) → flat_map f l = [].
Proof.
  induction l as [|a l IH]; intros H; simpl; [done|].
  rewrite (H a) by left. simpl. apply IH. intros n Hn. apply H. by right.
Qed.

Section WrapStep.
Context (w first : Node) (moved : list nat).
Hypothesis w_element : nodeType w = ELEMENT_NODE.

Lemma wrapStep_cases n :
  wrapStep w first moved n = [w] ∧ nodeId n = nodeId first
  ∨ wrapStep w first moved n = []
  ∨ wrapStep w first moved n = [n].
Proof.
  unfold wrapStep. destruct (nodeId n =? nodeId first) eqn:E.
  - left. split; [done|]. by apply Nat.eqb_eq.
  - right. destruct (bool_decide _); [by left|by right].
Qed.

Lemma wrapStep_keep n :
  nodeId n ≠ nodeId first → nodeId n ∉ moved →
  wrapStep w first moved n = [n].
Proof.
  intros H1 H2. unfold wrapStep. apply Nat.eqb_neq in H1. rewrite H1.
  by rewrite bool_decide_eq_false_2.
Qed.

Lemma wrapStep_elements content :
  (∀ n, n ∈ content → nodeType n ≠ ELEMENT_NODE →
        wrapStep w first moved n = [n]) →
  filter (λ n, nodeType n = ELEMENT_NODE)
    (flat_map (wrapStep w first moved) content)
  = flat_map (wrapStep w first moved)
      (filter (λ n, nodeType n = ELEMENT_NODE) content).
Proof using w_element.
  induction content as [|n content IH]; intros Hother; [done|].
  simpl. rewrite list.filter_app, IH by (intros x Hx; apply Hother; by right).
  destruct (decide (nodeType n = ELEMENT_NODE)) as [Hel|Hno].
  - rewrite (filter_cons_True _ n) by exact Hel. simpl. f_equal.
    destruct (wrapStep_cases n) as [[-> _]|[-> | ->]]; [|done|].
    + by rewrite filter_cons_True.
    + by rewrite filter_cons_True.
  - rewrite (filter_cons_False _ n) by exact Hno.
    rewrite (Hother n) by (done || left). by rewrite filter_cons_False.
Qed.

Lemma wrapStep_others content :
  (∀ n, n ∈ content → nodeType n ≠ ELEMENT_NODE →
        wrapStep w first moved n = [n]) →
  filter (λ n, nodeType n ≠ ELEMENT_NODE)
    (flat_map (wrapStep w first moved) content)
  = filter (λ n, nodeType n ≠ ELEMENT_NODE) content.
Proof using w_element.
  induction content as [|n content IH]; intros Hother; [done|].
  simpl. rewrite list.filter_app, IH by (intros x Hx; apply Hother; by right).
  destruct (decide (nodeType n = ELEMENT_NODE)) as [Hel|Hno].
  - rewrite (filter_cons_False _ n) by (intros H; by apply H).
    destruct (wrapStep_cases n) as [[-> _]|[-> | ->]]; [|done|].
    + rewrite filter_cons_False by (intros H; by apply H). done.
    + rewrite filter_cons_False by (intros H; by apply H). done.
  - rewrite (filter_cons_True _ n) by exact Hno.
    rewrite (Hother n) by (done || left). by rewrite filter_cons_True.
Qed.

Lemma wrapStep_elem_of content x :
  x ∈ flat_map (wrapStep w first moved) content →
  x ∈ content ∨ (x = w ∧ ∃ n, n ∈ content ∧ nodeId n = nodeId first).
Proof.
  induction content as [|n content IH]; simpl; intros Hx.
  { by apply elem_of_nil in Hx. }
  apply elem_of_app in Hx as [Hx|Hx].
  - destruct (wrapStep_cases n) as [[E Hid]|[E|E]]; rewrite E in Hx.
    + apply list_elem_of_singleton in Hx as ->. right. split; [done|].
      exists n. split; [left|done].
    + by apply elem_of_nil in Hx.
    + apply list_elem_of_singleton in Hx as ->. left. left.
  - destruct (IH Hx) as [?|(-> & n' & ? & ?)].
    + left. by right.
    + right. split; [done|]. exists n'. split; [by right|done].
Qed.

Lemma wrapStep_NoDup content :
  NoDup (nodeId <$> content) →
  (∀ n, n ∈ content → nodeId n < nodeId w) →
  NoDup (nodeId <$> flat_map (wrapStep w first moved) content).
Proof.
  clear w_element.
  induction content as [|n content IH]; intros Hnd Hlt; [constructor|].
  simpl in Hnd. apply list.NoDup_cons in Hnd as [Hn Hnd]. simpl.
  rewrite fmap_app.
  specialize (IH Hnd (λ x Hx, Hlt x (list_elem_of_further _ _ _ Hx))).
  assert (∀ x, x ∈ flat_map (wrapStep w first moved) content →
               nodeId n = nodeId first → nodeId x ≠ nodeId w) as Hfresh.
  { intros x Hx Hid Hxw.
    destruct (wrapStep_elem_of _ _ Hx) as [Hc|(_ & n' & Hn' & Hid')].
    - specialize (Hlt x (list_elem_of_further _ _ _ Hc)). lia.
    - apply Hn. rewrite Hid, <- Hid'. apply list_elem_of_fmap. by exists n'. }
  destruct (wrapStep_cases n) as [[E Hid]|[E|E]]; rewrite E; simpl.
  - apply list.NoDup_cons. split; [|done]. intros Hin.
    apply list_elem_of_fmap in Hin as (x & Hxw & Hx).
    by apply (Hfresh x Hx Hid).
  - done.
  - apply list.NoDup_cons. split; [|done]. intros Hin.
    apply list_elem_of_fmap in Hin as (x & Hxn & Hx).
    destruct (wrapStep_elem_of _ _ Hx) as [Hc|(-> & _)].
    + apply Hn. rewrite Hxn. apply list_elem_of_fmap. by exists x.
    + specialize (Hlt n (list_elem_of_here _ _)). lia.
Qed.
End WrapStep.

Lemma wrapStep_group w first rest (W later : list Node) :
  NoDup (nodeId <$> (W ++ (first :: rest) ++ later)) →
  flat_map (wrapStep w first (nodeId <$> first :: rest))
    (W ++ (first :: rest) ++ later)
  = W ++ [w] ++ later.
Proof.
  intros Hnd. rewrite !fmap_app in Hnd.
  apply list.NoDup_app in Hnd as (_ & HW & Hnd).
  apply list.NoDup_app in Hnd as (Hg & Hgl & _).
  rewrite fmap_cons in Hg. apply list.NoDup_cons in Hg as [Hfirst _].
  assert (∀ n, n ∈ first :: rest →
               nodeId n ∈ nodeId <$> first :: rest) as Hmoved.
  { intros n Hn. apply list_elem_of_fmap. by exists n. }
  rewrite !flat_map_app. f_equal; [|f_equal].
  - apply flat_map_id_on. intros n Hn.
    assert (nodeId n ∉ (nodeId <$> first :: rest) ++ (nodeId <$> later))
      as Hout by (apply HW, list_elem_of_fmap; by exists n).
    apply wrapStep_keep.
    + intros E. apply Hout, elem_of_app. left. rewrite E. left.
    + intros E. apply Hout, elem_of_app. by left.
  - simpl. unfold wrapStep at 1. rewrite Nat.eqb_refl. simpl. f_equal.
    apply flat_map_nil_on. intros n Hn. unfold wrapStep.
    assert (nodeId n ≠ nodeId first) as Hne.
    { intros E. apply Hfirst. rewrite <- E. apply list_elem_of_fmap.
      by exists n. }
    apply Nat.eqb_neq in Hne. rewrite Hne.
    rewrite bool_decide_eq_true_2; [done|]. apply Hmoved. by right.
  - apply flat_map_id_on. intros n Hn.
    assert (nodeId n ∉ nodeId <$> first :: rest) as Hout.
    { intros E. apply (Hgl _ E). apply list_elem_of_fmap. by exists n. }
    apply wrapStep_keep; [|done]. intros E. apply Hout. rewrite E. left.
Qed.

(** One call of the callback on a non-empty group with a section. *)
Lemma matchCallback_wrap index first rest m l r :
  _sectionList m = Some l → l !! index = Some r →
  ∃ m1, matchCallback (index, first :: rest) m = Returns tt m1
    ∧ _sectionList m1 = Some l
    ∧ nextNodeId m1 = S (nextNodeId m)
    ∧ previewContent m1
      = flat_map
          (wrapStep (sectionDiv (nextNodeId m) index (first :: rest)) first
             (nodeId <$> first :: rest))
          (previewContent m).
Proof.
  intros Hl Hr. unfold matchCallback, bind, gets. rewrite Hl, Hr.
  eexists. split; [reflexivity|]. by repeat split.
Qed.

Lemma wrapAll_preview m w first rest (W later : list Node) :
  nodeType w = ELEMENT_NODE → nodeId w = nextNodeId m →
  wellFormedPreview m →
  previewElements m = W ++ (first :: rest) ++ later →
  let content :=
    flat_map (wrapStep w first (nodeId <$> first :: rest))
      (previewContent m) in
  filter (λ n, nodeType n = ELEMENT_NODE) content = W ++ [w] ++ later
  ∧ filter (λ n, nodeType n ≠ ELEMENT_NODE) content = previewOthers m
  ∧ NoDup (nodeId <$> content)
  ∧ ∀ n, n ∈ content → nodeId n < S (nextNodeId m).
Proof.
  intros Hw Hid [Hnd Hlt] Hels content.
  assert (∀ n, n ∈ previewContent m → nodeType n ≠ ELEMENT_NODE →
               wrapStep w first (nodeId <$> first :: rest) n = [n])
    as Hother.
  { intros n Hn Hno.
    assert (∀ x, x ∈ first :: rest → nodeId n ≠ nodeId x) as Hdiff.
    { intros x Hx E.
      assert (x ∈ previewElements m) as Hxe.
      { rewrite Hels. apply elem_of_app. right. apply elem_of_app. by left. }
      apply list_elem_of_filter in Hxe as [Hxel Hxc].
      assert (n = x) as -> by (by apply (NoDup_fmap_eq nodeId _ _ _ Hnd)).
      done. }
    apply wrapStep_keep.
    - apply Hdiff. left.
    - intros E. apply list_elem_of_fmap in E as (x & E & Hx).
      by apply (Hdiff x Hx). }
  split; [|split; [|split]].
  - subst content. rewrite (wrapStep_elements _ _ _ Hw _ Hother).
    fold (previewElements m). rewrite Hels. apply wrapStep_group.
    rewrite <- Hels. unfold previewElements.
    eapply sublist_NoDup; [exact Hnd|]. apply fmap_sublist, sublist_filter.
  - subst content. by apply wrapStep_others.
  - subst content. apply wrapStep_NoDup; [done|]. intros n Hn.
    rewrite Hid. by apply Hlt.
  - intros n Hn. apply wrapStep_elem_of in Hn as [Hn|(-> & _)].
    + specialize (Hlt n Hn). lia.
    + lia.
Qed.

Lemma wrapLoop l gs : ∀ k m W,
  _sectionList m = Some l → k + length gs ≤ length l →
  Forall (λ g, g ≠ []) gs → wellFormedPreview m →
  previewElements m = W ++ concat gs →
  ∃ m', forEach matchCallback (imap (λ i g, (k + i, g)) gs) m = Returns tt m'
    ∧ previewElements m'
      = W ++ imap (λ i g, sectionDiv (nextNodeId m + i) (k + i) g) gs
    ∧ previewOthers m' = previewOthers m
    ∧ nextNodeId m' = nextNodeId m + length gs
    ∧ wellFormedPreview m'
    ∧ _sectionList m' = Some l.
Proof.
  induction gs as [|g gs IH]; intros k m W Hl Hk Hne Hwf Hels.
  { exists m. simpl in *. rewrite app_nil_r in *. by rewrite Nat.add_0_r. }
  apply list.Forall_cons in Hne as [Hg Hne].
  destruct g as [|first rest]; [done|].
  destruct (lookup_lt_is_Some_2 l k) as [r Hr]; [simpl in Hk; lia|].
  rewrite imap_cons. cbn [forEach]. unfold bind. rewrite Nat.add_0_r.
  destruct (matchCallback_wrap k first rest m l r Hl Hr)
    as (m1 & -> & Hl1 & Hn1 & Hc1).
  set (w := sectionDiv (nextNodeId m) k (first :: rest)) in *.
  simpl in Hels.
  destruct (wrapAll_preview m w first rest W (concat gs)
              eq_refl eq_refl Hwf Hels) as (He1 & Ho1 & Hnd1 & Hlt1).
  rewrite <- Hc1 in He1, Ho1, Hnd1, Hlt1.
  assert (wellFormedPreview m1) as Hwf1.
  { split; [done|]. intros n Hn. rewrite Hn1. by apply Hlt1. }
  destruct (IH (S k) m1 (W ++ [w]) Hl1)
    as (m' & Hrun & He & Ho & Hn & Hwf' & Hl');
    [simpl in Hk; lia|done|done|by rewrite <- app_assoc|].
  exists m'. split; [|split; [|split; [|split; [|split]]]].
  - rewrite <- Hrun. f_equal. apply imap_ext. intros i x _. simpl.
    f_equal. lia.
  - rewrite He, <- app_assoc. f_equal. simpl. rewrite !Nat.add_0_r.
    f_equal; try reflexivity. apply imap_ext. intros i x _. simpl.
    rewrite Hn1. f_equal; lia.
  - by rewrite Ho.
  - rewrite Hn, Hn1. simpl. lia.
  - done.
  - done.
Qed.

(** [sectionMatch] on a preview with an element, distinct identities and a
    section for every group. *)
Lemma sectionMatch_wraps m l :
  _sectionList m = Some l → wellFormedPreview m →
  previewElements m ≠ [] →
  length (groupElements (previewElements m)) ≤ length l →
  ∃ m', sectionMatch m = Returns tt m'
    ∧ previewElements m'
      = imap (λ i g, sectionDiv (nextNodeId m + i) i g)
          (groupElements (previewElements m))
    ∧ previewOthers m' = previewOthers m
    ∧ nextNodeId m'
      = nextNodeId m + length (groupElements (previewElements m))
    ∧ wellFormedPreview m'
    ∧ _sectionList m' = Some l.
Proof.
  intros Hl Hwf Hne Hlen. rewrite (sectionMatch_unfold m l Hl).
  fold (previewElements m).
  set (groups := groupElements (previewElements m)) in *.
  assert (concat groups = previewElements m) as Hcat.
  { subst groups. rewrite groupElements_groupBy. by rewrite groupBy_concat. }
  assert (Forall (λ g, g ≠ []) groups) as Hall.
  { subst groups. rewrite groupElements_groupBy.
    apply groupBy_nonempty_groups; [constructor|by right]. }
  destruct (wrapLoop l groups 0 m [] Hl Hlen Hall Hwf (eq_sym Hcat))
    as (m' & Hrun & He & Ho & Hn & Hwf' & Hl').
  exists m'. split; [exact Hrun|]. split; [exact He|].
  split; [exact Ho|]. split; [exact Hn|]. split; [exact Hwf'|exact Hl'].
Qed.

(** X15: what [sectionMatch] does to the preview. Let the children of the
    preview have distinct identities, at least one of them be an element,
    and the list have a section for every group. Then [sectionMatch]
    returns, and the element children of the preview are afterwards the new
    [div]s, one per group and in the order of the groups: the [i]-th has
    class [content-id-i] and the elements of group [i] as its children.
    The children that are not elements are what they were, and the
    children keep distinct identities. *)
Theorem sectionMatch_wraps_groups m l :
  _sectionList m = Some l → wellFormedPreview m →
  previewElements m ≠ [] →
  length (groupElements (previewElements m)) ≤ length l →
  ∃ m', sectionMatch m = Returns tt m'
    ∧ previewElements m'
      = imap (λ i g, sectionDiv (nextNodeId m + i) i g)
          (groupElements (previewElements m))
    ∧ previewOthers m' = previewOthers m
    ∧ nextNodeId m'
      = nextNodeId m + length (groupElements (previewElements m))
    ∧ wellFormedPreview m'.
Proof.
  intros Hl Hwf Hne Hlen.
  destruct (sectionMatch_wraps m l Hl Hwf Hne Hlen)
    as (m' & Hrun & He & Ho & Hn & Hwf' & _).
  exists m'. split; [exact Hrun|]. split; [exact He|].
  split; [exact Ho|]. split; [exact Hn|exact Hwf'].
Qed.

Lemma sectionMatch_wraps_groups_witness :
  wellFormedPreview
    (set_preview [element 0 "H1"; element 1 "P"; element 2 "H2"] 3
       exampleManager)
  ∧ ∃ m', sectionMatch
            (set_preview [element 0 "H1"; element 1 "P"; element 2 "H2"] 3
               exampleManager)
          = Returns tt m'
          ∧ previewElements m'
            = [sectionDiv 3 0 [element 0 "H1"; element 1 "P"];
               sectionDiv 4 1 [element 2 "H2"]].
Proof.
  assert (wellFormedPreview
            (set_preview [element 0 "H1"; element 1 "P"; element 2 "H2"] 3
               exampleManager)) as Hwf.
  { split.
    - apply (NoDup_seq 0 3).
    - intros n Hn. apply list_elem_of_In in Hn. simpl in Hn.
      destruct Hn as [<-|[<-|[<-|[]]]]; simpl; lia. }
  split; [exact Hwf|].
  destruct (sectionMatch_wraps_groups
              (set_preview [element 0 "H1"; element 1 "P"; element 2 "H2"] 3
                 exampleManager) [0; 1] eq_refl Hwf)
    as (m' & Hrun & He & _).
  - discriminate.
  - vm_compute. lia.
  - exists m'. split; [exact Hrun|exact He].
Defined.

Lemma groupBy_no_heading isHeading els : ∀ closed current,
  Forall (λ el, isHeading (tagName el) = false) els →
  groupBy isHeading closed current els = closed ++ [current ++ els].
Proof.
  induction els as [|el els IH]; intros closed current Hno; simpl.
  - by rewrite app_nil_r.
  - apply list.Forall_cons in Hno as [Hel Hno]. rewrite Hel. simpl.
    rewrite IH by done. by rewrite <- app_assoc.
Qed.

(** X16: matching is to be done once per rendering. Under the conditions of
    X15, a second [sectionMatch] on the preview the first one left returns
    too, but finds no heading among the [div]s: it makes of them all one
    group and wraps them together in a single new [div] of class
    [content-id-0], which is then the only element child of the preview. *)
Theorem sectionMatch_twice_nests m l :
  _sectionList m = Some l → wellFormedPreview m →
  previewElements m ≠ [] →
  length (groupElements (previewElements m)) ≤ length l →
  ∃ m' m'', sectionMatch m = Returns tt m'
    ∧ sectionMatch m' = Returns tt m''
    ∧ length (previewElements m')
      = length (groupElements (previewElements m))
    ∧ previewElements m''
      = [sectionDiv (nextNodeId m') 0 (previewElements m')].
Proof.
  intros Hl Hwf Hne Hlen.
  destruct (sectionMatch_wraps m l Hl Hwf Hne Hlen)
    as (m' & Hrun & He & _ & _ & Hwf' & Hl').
  set (groups := groupElements (previewElements m)) in *.
  assert (groups ≠ []) as Hgroups.
  { subst groups. rewrite groupElements_groupBy. apply groupBy_nonempty. }
  assert (previewElements m' ≠ []) as Hne'.
  { rewrite He. intros E. apply (f_equal length) in E.
    rewrite length_imap in E. by destruct groups. }
  assert (groupElements (previewElements m') = [previewElements m']) as Hg'.
  { rewrite groupElements_groupBy, groupBy_no_heading; [done|].
    rewrite He. apply Forall_forall. intros el Hel.
    apply list_elem_of_In, list_elem_of_lookup in Hel as [i Hi].
    rewrite list_lookup_imap in Hi.
    destruct (groups !! i); simpl in Hi; [|done]. by injection Hi as <-. }
  destruct (sectionMatch_wraps m' l Hl' Hwf' Hne')
    as (m'' & Hrun' & He' & _).
  { rewrite Hg'. simpl. destruct l; [|simpl; lia].
    destruct groups; [done|]. simpl in Hlen. lia. }
  exists m', m''. split; [done|]. split; [done|]. split.
  - by rewrite He, length_imap.
  - rewrite He', Hg'. simpl. by rewrite Nat.add_0_r.
Qed.

Lemma sectionMatch_twice_nests_witness :
  ∃ m' m'',
    sectionMatch
      (set_preview [element 0 "H1"; element 1 "P"; element 2 "H2"] 3
         exampleManager)
    = Returns tt m'
    ∧ sectionMatch m' = Returns tt m''
    ∧ previewElements m''
      = [sectionDiv (nextNodeId m') 0 (previewElements m')].
Proof.
  assert (wellFormedPreview
            (set_preview [element 0 "H1"; element 1 "P"; element 2 "H2"] 3
               exampleManager)) as Hwf.
  { split.
    - apply (NoDup_seq 0 3).
    - intros n Hn. apply list_elem_of_In in Hn. simpl in Hn.
      destruct Hn as [<-|[<-|[<-|[]]]]; simpl; lia. }
  destruct (sectionMatch_twice_nests
              (set_preview [element 0 "H1"; element 1 "P"; element 2 "H2"] 3
                 exampleManager) [0; 1] eq_refl Hwf)
    as (m' & m'' & Hrun & Hrun' & _ & He).
  - discriminate.
  - vm_compute. lia.
  - exists m', m''. split; [exact Hrun|]. split; [exact Hrun'|exact He].
Defined.
